(** * ESPNowMeshClock: a shallow embedding of the mesh clock library

    The development follows the C++ sources of the library
    (ESPNowMeshClock.h / ESPNowMeshClock.cpp).  Fixed-width integers are
    integers of [Z] with the wrap-around written out, bytes are
    [Byte.byte], the single-precision slew factor is a binary32 value of
    the standard IEEE 754 specification [SpecFloat], and the readings the
    code takes from its environment (the microsecond counter, [millis()],
    [random()]) are passed explicitly.  What the code asks of the radio
    and of the host (frames sent, user callback calls) is returned as a
    list of effects.  Serial diagnostics and the debug-log flags that
    gate them are not modelled.

    Two revisions of the methods are embedded: [Baseline] is
    src/ESPNowMeshClock.cpp, whose large step sets the clock directly;
    [ForwardOnly] is the revision whose large step only moves forward and
    whose broadcast stamp includes [TRANSMISSION_DELAY_US].  The packet
    format, the sync state and the scheduler are the same in both. *)

From Stdlib Require Import ZArith List Bool Lia Strings.Byte.
From Stdlib Require Import Floats.SpecFloat.
Import ListNotations.

Local Open Scope Z_scope.

(** ** Fixed-width integers *)

Module Int.

(** [uint64_t] arithmetic: reduction modulo 2^64. *)
Definition wrap64 (z : Z) : Z := z mod 2 ^ 64.

(** [uint32_t] arithmetic: reduction modulo 2^32. *)
Definition wrap32 (z : Z) : Z := z mod 2 ^ 32.

(** Conversion of a 64-bit pattern to [int64_t] (two's complement). *)
Definition to_int64 (z : Z) : Z :=
  let w := wrap64 z in
  if w <? 2 ^ 63 then w else w - 2 ^ 64.

(** [abs] on an [int64_t]; the most negative value has no positive
    counterpart and is left as it is by the negation. *)
Definition abs64 (d : Z) : Z :=
  if 0 <? d then d else to_int64 (- d).

Definition is_u8 (z : Z) : Prop := 0 <= z < 2 ^ 8.
Definition is_u16 (z : Z) : Prop := 0 <= z < 2 ^ 16.
Definition is_u32 (z : Z) : Prop := 0 <= z < 2 ^ 32.
Definition is_u64 (z : Z) : Prop := 0 <= z < 2 ^ 64.

(** Value of a [uint8_t]. *)
Definition u8 (b : byte) : Z := Z.of_N (Byte.to_N b).

(** Narrowing to [uint8_t]. *)
Definition to_u8 (z : Z) : byte :=
  match Byte.of_N (Z.to_N (z mod 2 ^ 8)) with
  | Some b => b
  | None => x00
  end.

End Int.

Import Int.

(** ** The wire packet *)

(** Magic header of mesh clock packets: "MCK". *)
Definition MESHCLOCK_MAGIC_0 : byte := x4d.
Definition MESHCLOCK_MAGIC_1 : byte := x43.
Definition MESHCLOCK_MAGIC_2 : byte := x4b.

(** [struct MeshClockPacket]: 3 bytes of magic, 7 bytes of timestamp. *)
Record MeshClockPacket := {
  magic : list byte;
  timestamp : list byte
}.

Definition sizeof_MeshClockPacket : Z := 10.

(** The cast [(const MeshClockPacket* )data]: the fields are read in place
    from the receive buffer. *)
Definition packet_of_data (data : list byte) : MeshClockPacket :=
  {| magic := map (fun i => nth i data x00) (seq 0 3);
     timestamp := map (fun i => nth (3 + i) data x00) (seq 0 7) |}.

(** The cast [(uint8_t* )&packet]: the bytes handed to the radio. *)
Definition data_of_packet (p : MeshClockPacket) : list byte :=
  magic p ++ timestamp p.

(** The unpacking loop of [handleReceive]:
    [remoteMicros |= ((uint64_t)packet->timestamp[i]) << (i * 8)]
    for [i] from 0 to 6.  A byte shifted by at most 48 bits stays below
    2^56, so no 64-bit wrap-around occurs. *)
Definition unpack_step (ts : list byte) (acc : Z) (i : nat) : Z :=
  Z.lor acc (Z.shiftl (u8 (nth i ts x00)) (Z.of_nat i * 8)).

Definition unpack_timestamp (ts : list byte) : Z :=
  fold_left (unpack_step ts) (seq 0 7) 0.

(** The packing loop of [_broadcast]:
    [packet.timestamp[i] = (stamp >> (i * 8)) & 0xFF] for [i] from 0 to 6. *)
Definition pack_timestamp (stamp : Z) : list byte :=
  map (fun i => to_u8 (Z.land (Z.shiftr stamp (Z.of_nat i * 8)) 255)) (seq 0 7).

(** The packet [_broadcast] prepares for a stamp. *)
Definition make_packet (stamp : Z) : MeshClockPacket :=
  {| magic := [MESHCLOCK_MAGIC_0; MESHCLOCK_MAGIC_1; MESHCLOCK_MAGIC_2];
     timestamp := pack_timestamp stamp |}.

(** The test guarding the clock path of [handleReceive]: exact size, then
    the three magic bytes. *)
Definition magic_ok (p : MeshClockPacket) : bool :=
  Byte.eqb (nth 0 (magic p) x00) MESHCLOCK_MAGIC_0 &&
  Byte.eqb (nth 1 (magic p) x00) MESHCLOCK_MAGIC_1 &&
  Byte.eqb (nth 2 (magic p) x00) MESHCLOCK_MAGIC_2.

(** What [handleReceive] extracts from a buffer: the remote timestamp of a
    clock packet, or nothing when the buffer is not a clock packet. *)
Definition parse_packet (data : list byte) (len : Z) : option Z :=
  if len =? sizeof_MeshClockPacket then
    let packet := packet_of_data data in
    if magic_ok packet then Some (unpack_timestamp (timestamp packet))
    else None
  else None.

(** ** Single-precision floating point

    [float] is IEEE 754 binary32: 24 bits of precision, exponents up to
    128, rounding to nearest with ties to even.  The operations are those
    of the standard specification [SpecFloat], instantiated at this
    format. *)

Module Float32.

Definition prec : Z := 24.
Definition emax : Z := 128.

(** A well-formed binary32 datum. *)
Definition valid (f : spec_float) : Prop := valid_binary prec emax f = true.

(** Conversion of an [int64_t] to [float]. *)
Definition of_int64 (d : Z) : spec_float := binary_normalize prec emax d 0 false.

(** The [float] nearest to [m * 2^e]; used to write constants. *)
Definition of_scaled (m e : Z) : spec_float := binary_normalize prec emax m e false.

(** [float] multiplication. *)
Definition mul (x y : spec_float) : spec_float := SFmul prec emax x y.

(** Conversion of a [float] to [uint64_t]: truncation toward zero.  C++
    leaves the conversion undefined for a NaN, an infinity, and a value
    whose truncation is negative or not below 2^64; these are given the
    value 0 here.  They do not arise from a positive delta and a factor
    in [0, 1]. *)
Definition to_uint64 (f : spec_float) : Z :=
  match f with
  | S754_zero _ => 0
  | S754_finite s m e =>
      let t := Z.shiftl (Zpos m) e in
      if s then 0 else if t <? 2 ^ 64 then t else 0
  | S754_infinity _ => 0
  | S754_nan => 0
  end.

(** The constants 0.25 (the default slew factor), 0.5, 0.75 and 1.0. *)
Definition quarter : spec_float := of_scaled 1 (-2).
Definition half : spec_float := of_scaled 1 (-1).
Definition three_quarters : spec_float := of_scaled 3 (-2).
Definition one : spec_float := of_scaled 1 0.
Definition zero : spec_float := S754_zero false.

(** [0 <= f <= 1] for a binary32 datum. *)
Definition in_unit_interval (f : spec_float) : Prop :=
  SFleb zero f = true /\ SFleb f one = true.

(** The exact real product of an integer by a non-negative finite
    [float], rounded down to an integer: [floor (d * f)].  A finite
    [float] is the dyadic number [m * 2^e], so the floor is a shift. *)
Definition floor_mul (d : Z) (f : spec_float) : Z :=
  match f with
  | S754_finite false m e => Z.shiftl (d * Zpos m) e
  | _ => 0
  end.

End Float32.

(** ** The clock object *)

(** [enum class SyncState]. *)
Inductive SyncState := ALONE | SYNCED | LOST.

(** A receive callback registered by the host ([ESPNowRecvCallback]) is a
    function pointer; it is identified by its address. *)
Definition ESPNowRecvCallback := positive.

(** What the library asks of the world around it: frames handed to
    [esp_now_send] and calls of the host's receive callback. *)
Inductive Effect :=
| EspNowSend (peer : list byte) (data : list byte) (len : Z)
| UserCallback (cb : ESPNowRecvCallback) (mac : list byte) (data : list byte) (len : Z).

(** The data members of [class ESPNowMeshClock].  The clock function
    [_clock] is represented by the readings it returns (see [Env]). *)
Record ESPNowMeshClock := {
  _interval : Z;              (* uint16_t *)
  _alpha : spec_float;        (* float    *)
  _largeStep : Z;             (* uint32_t *)
  _syncTimeout : Z;           (* uint32_t *)
  _randomVariation : Z;       (* uint8_t  *)
  _offset : Z;                (* uint64_t *)
  _synced : bool;
  _lastSync : Z;              (* uint32_t *)
  _lastBroadcast : Z;         (* uint32_t *)
  _nextBroadcastDelay : Z;    (* uint32_t *)
  _userCallback : option ESPNowRecvCallback
}.

(** The readings one method call takes from its environment: [_clock()],
    [millis()] and [random(howsmall, howbig)]. *)
Record Env := {
  clock_us : Z;               (* uint64_t *)
  millis : Z;                 (* uint32_t *)
  random : Z -> Z -> Z
}.

(** Arduino's [random(howsmall, howbig)] returns a value from [howsmall]
    up to [howbig - 1]. *)
Definition random_ok (env : Env) : Prop :=
  forall lo hi, lo < hi -> lo <= random env lo hi < hi.

Definition bcastAddr : list byte := [xff; xff; xff; xff; xff; xff].

(** The constructor, with its default arguments below. *)
Definition construct (interval_ms : Z) (slew_alpha : spec_float) (large_step_us : Z)
    (sync_timeout_ms : Z) (random_variation_percent : Z) : ESPNowMeshClock :=
  {| _interval := interval_ms;
     _alpha := slew_alpha;
     _largeStep := large_step_us;
     _syncTimeout := sync_timeout_ms;
     _randomVariation := random_variation_percent;
     _offset := 0;
     _synced := false;
     _lastSync := 0;
     _lastBroadcast := 0;
     _nextBroadcastDelay := 0;
     _userCallback := None |}.

Definition default_clock : ESPNowMeshClock :=
  construct 1000 Float32.quarter 10000 5000 10.

(** The fields are within the ranges of their C++ types. *)
Record well_typed (c : ESPNowMeshClock) : Prop := {
  wt_interval : is_u16 (_interval c);
  wt_alpha : Float32.valid (_alpha c);
  wt_largeStep : is_u32 (_largeStep c);
  wt_syncTimeout : is_u32 (_syncTimeout c);
  wt_randomVariation : is_u8 (_randomVariation c);
  wt_offset : is_u64 (_offset c);
  wt_lastSync : is_u32 (_lastSync c);
  wt_lastBroadcast : is_u32 (_lastBroadcast c);
  wt_nextBroadcastDelay : is_u32 (_nextBroadcastDelay c)
}.

Record env_typed (env : Env) : Prop := {
  et_clock : is_u64 (clock_us env);
  et_millis : is_u32 (millis env)
}.

(** Field updates. *)
Definition set_offset (c : ESPNowMeshClock) (v : Z) : ESPNowMeshClock :=
  {| _interval := _interval c; _alpha := _alpha c; _largeStep := _largeStep c;
     _syncTimeout := _syncTimeout c; _randomVariation := _randomVariation c;
     _offset := v; _synced := _synced c; _lastSync := _lastSync c;
     _lastBroadcast := _lastBroadcast c;
     _nextBroadcastDelay := _nextBroadcastDelay c;
     _userCallback := _userCallback c |}.

Definition set_synced (c : ESPNowMeshClock) (v : bool) : ESPNowMeshClock :=
  {| _interval := _interval c; _alpha := _alpha c; _largeStep := _largeStep c;
     _syncTimeout := _syncTimeout c; _randomVariation := _randomVariation c;
     _offset := _offset c; _synced := v; _lastSync := _lastSync c;
     _lastBroadcast := _lastBroadcast c;
     _nextBroadcastDelay := _nextBroadcastDelay c;
     _userCallback := _userCallback c |}.

Definition set_lastSync (c : ESPNowMeshClock) (v : Z) : ESPNowMeshClock :=
  {| _interval := _interval c; _alpha := _alpha c; _largeStep := _largeStep c;
     _syncTimeout := _syncTimeout c; _randomVariation := _randomVariation c;
     _offset := _offset c; _synced := _synced c; _lastSync := v;
     _lastBroadcast := _lastBroadcast c;
     _nextBroadcastDelay := _nextBroadcastDelay c;
     _userCallback := _userCallback c |}.

Definition set_lastBroadcast (c : ESPNowMeshClock) (v : Z) : ESPNowMeshClock :=
  {| _interval := _interval c; _alpha := _alpha c; _largeStep := _largeStep c;
     _syncTimeout := _syncTimeout c; _randomVariation := _randomVariation c;
     _offset := _offset c; _synced := _synced c; _lastSync := _lastSync c;
     _lastBroadcast := v;
     _nextBroadcastDelay := _nextBroadcastDelay c;
     _userCallback := _userCallback c |}.

Definition set_nextBroadcastDelay (c : ESPNowMeshClock) (v : Z) : ESPNowMeshClock :=
  {| _interval := _interval c; _alpha := _alpha c; _largeStep := _largeStep c;
     _syncTimeout := _syncTimeout c; _randomVariation := _randomVariation c;
     _offset := _offset c; _synced := _synced c; _lastSync := _lastSync c;
     _lastBroadcast := _lastBroadcast c;
     _nextBroadcastDelay := v;
     _userCallback := _userCallback c |}.

(** [setUserCallback]. *)
Definition setUserCallback (c : ESPNowMeshClock) (callback : option ESPNowRecvCallback)
    : ESPNowMeshClock :=
  {| _interval := _interval c; _alpha := _alpha c; _largeStep := _largeStep c;
     _syncTimeout := _syncTimeout c; _randomVariation := _randomVariation c;
     _offset := _offset c; _synced := _synced c; _lastSync := _lastSync c;
     _lastBroadcast := _lastBroadcast c;
     _nextBroadcastDelay := _nextBroadcastDelay c;
     _userCallback := callback |}.

(** [meshMicros]: [_clock() + _offset], in [uint64_t]. *)
Definition meshMicros (c : ESPNowMeshClock) (env : Env) : Z :=
  wrap64 (clock_us env + _offset c).

(** [meshMillis]: [meshMicros() / 1000] narrowed to [uint32_t]. *)
Definition meshMillis (c : ESPNowMeshClock) (env : Env) : Z :=
  wrap32 (meshMicros c env / 1000).

(** [getSyncState]; the subtraction is in [uint32_t]. *)
Definition getSyncState (c : ESPNowMeshClock) (env : Env) : SyncState :=
  if negb (_synced c) then ALONE
  else
    let nowMs := millis env in
    if wrap32 (nowMs - _lastSync c) >? _syncTimeout c then LOST
    else SYNCED.

(** The slew step of [_adjust]: [(uint64_t)(delta * _alpha)].  The
    [int64_t] delta is converted to [float], the product is a [float], and
    the conversion to [uint64_t] truncates. *)
Definition slew_step (delta : Z) (alpha : spec_float) : Z :=
  Float32.to_uint64 (Float32.mul (Float32.of_int64 delta) alpha).

(** ** The methods, as in src/ESPNowMeshClock.cpp *)

Module Baseline.

(** [_adjust]: the large-step branch sets the clock directly, the
    small-step branch slews forward. *)
Definition _adjust (c : ESPNowMeshClock) (env : Env) (remoteMicros : Z)
    : ESPNowMeshClock :=
  let localMicros := wrap64 (clock_us env + _offset c) in
  let delta := to_int64 (remoteMicros - localMicros) in
  let c := set_lastSync c (millis env) in
  if negb (_synced c) || (abs64 delta >? _largeStep c) then
    set_synced (set_offset c (wrap64 (_offset c + delta))) true
  else if delta >? 0 then
    let step := slew_step delta (_alpha c) in
    set_offset c (wrap64 (_offset c + step))
  else c.

(** [handleReceive]: the result tells whether the buffer was a clock
    packet. *)
Definition handleReceive (c : ESPNowMeshClock) (env : Env)
    (mac data : list byte) (len : Z) : bool * ESPNowMeshClock :=
  if len =? sizeof_MeshClockPacket then
    let packet := packet_of_data data in
    if magic_ok packet then
      let remoteMicros := unpack_timestamp (timestamp packet) in
      (true, _adjust c env remoteMicros)
    else (false, c)
  else (false, c).

(** [_onReceive], the radio callback; [_instance] is the static pointer
    to the clock object, null before any is constructed. *)
Definition _onReceive (_instance : option ESPNowMeshClock) (env : Env)
    (mac data : list byte) (len : Z) : option ESPNowMeshClock * list Effect :=
  match _instance with
  | Some c =>
      let (handled, c') := handleReceive c env mac data len in
      match negb handled, _userCallback c' with
      | true, Some cb => (Some c', [UserCallback cb mac data len])
      | _, _ => (Some c', [])
      end
  | None => (None, [])
  end.

(** [_broadcast]: the frame handed to [esp_now_send]. *)
Definition _broadcast (c : ESPNowMeshClock) (env : Env) : Effect :=
  let stamp := meshMicros c env in
  let packet := make_packet stamp in
  EspNowSend bcastAddr (data_of_packet packet) sizeof_MeshClockPacket.

(** [loop]. *)
Definition loop (c : ESPNowMeshClock) (env : Env) : ESPNowMeshClock * list Effect :=
  let nowMs := millis env in
  let c :=
    if _nextBroadcastDelay c =? 0 then
      let variation := (_interval c * _randomVariation c) / 100 in
      let randomOffset := random env (- variation) (variation + 1) in
      set_nextBroadcastDelay c (wrap32 (_interval c + randomOffset))
    else c in
  if wrap32 (nowMs - _lastBroadcast c) >=? _nextBroadcastDelay c then
    let c := set_nextBroadcastDelay (set_lastBroadcast c nowMs) 0 in
    (c, [_broadcast c env])
  else (c, []).

End Baseline.

(** ** The methods, as in the revision that keeps the large step
    forward-only and stamps the frame ahead by the transmission delay *)

Module ForwardOnly.

(** [#define TRANSMISSION_DELAY_US 1000], unless the build defines it. *)
Definition DEFAULT_TRANSMISSION_DELAY_US : Z := 1000.

(** [_adjust]: a remote clock that is behind never moves the offset. *)
Definition _adjust (c : ESPNowMeshClock) (env : Env) (remoteMicros : Z)
    : ESPNowMeshClock :=
  let localMicros := wrap64 (clock_us env + _offset c) in
  let delta := to_int64 (remoteMicros - localMicros) in
  let c := set_lastSync c (millis env) in
  if negb (_synced c) || (abs64 delta >? _largeStep c) then
    if delta >? 0 then
      set_synced (set_offset c (wrap64 (_offset c + delta))) true
    else
      set_synced c true
  else if delta >? 0 then
    let step := slew_step delta (_alpha c) in
    set_offset c (wrap64 (_offset c + step))
  else c.

(** [handleReceive], with its early returns. *)
Definition handleReceive (c : ESPNowMeshClock) (env : Env)
    (mac data : list byte) (len : Z) : bool * ESPNowMeshClock :=
  if negb (len =? sizeof_MeshClockPacket) then (false, c)
  else
    let packet := packet_of_data data in
    if negb (Byte.eqb (nth 0 (magic packet) x00) MESHCLOCK_MAGIC_0)
       || negb (Byte.eqb (nth 1 (magic packet) x00) MESHCLOCK_MAGIC_1)
       || negb (Byte.eqb (nth 2 (magic packet) x00) MESHCLOCK_MAGIC_2)
    then (false, c)
    else
      let remoteMicros := unpack_timestamp (timestamp packet) in
      (true, _adjust c env remoteMicros).

Definition _onReceive (_instance : option ESPNowMeshClock) (env : Env)
    (mac data : list byte) (len : Z) : option ESPNowMeshClock * list Effect :=
  match _instance with
  | Some c =>
      let (handled, c') := handleReceive c env mac data len in
      match negb handled, _userCallback c' with
      | true, Some cb => (Some c', [UserCallback cb mac data len])
      | _, _ => (Some c', [])
      end
  | None => (None, [])
  end.

Section Build.

(** The value of the macro in the build at hand. *)
Variable TRANSMISSION_DELAY_US : Z.

(** [_broadcast]: the stamp is the mesh time plus the delay. *)
Definition _broadcast (c : ESPNowMeshClock) (env : Env) : Effect :=
  let stamp := wrap64 (meshMicros c env + TRANSMISSION_DELAY_US) in
  let packet := make_packet stamp in
  EspNowSend bcastAddr (data_of_packet packet) sizeof_MeshClockPacket.

Definition loop (c : ESPNowMeshClock) (env : Env) : ESPNowMeshClock * list Effect :=
  let nowMs := millis env in
  let c :=
    if _nextBroadcastDelay c =? 0 then
      let variation := (_interval c * _randomVariation c) / 100 in
      let randomOffset := random env (- variation) (variation + 1) in
      set_nextBroadcastDelay c (wrap32 (_interval c + randomOffset))
    else c in
  if wrap32 (nowMs - _lastBroadcast c) >=? _nextBroadcastDelay c then
    let c := set_nextBroadcastDelay (set_lastBroadcast c nowMs) 0 in
    (c, [_broadcast c env])
  else (c, []).

End Build.

End ForwardOnly.

(** ** The earliest revision: raw 8-byte frames

    In the earliest revision of the library the frame is the 64-bit stamp
    itself, copied to and from the buffer with [memcpy]; the ESP32 cores
    are little-endian.  Its [_adjust] is the one of [Baseline]. *)

Module RawFrame.

Definition sizeof_uint64_t : Z := 8.

(** [memcpy(&remoteMicros, data, sizeof(remoteMicros))]; the ESP32 stores
    the least significant byte first. *)
Definition load_uint64 (data : list byte) : Z :=
  fold_left (unpack_step data) (seq 0 8) 0.

(** The bytes of [(uint8_t* )&stamp]. *)
Definition store_uint64 (stamp : Z) : list byte :=
  map (fun i => to_u8 (Z.land (Z.shiftr stamp (Z.of_nat i * 8)) 255)) (seq 0 8).

(** [_onReceive]: every buffer of 8 bytes is taken as a stamp. *)
Definition _onReceive (_instance : option ESPNowMeshClock) (env : Env)
    (mac data : list byte) (len : Z) : option ESPNowMeshClock :=
  match (len =? sizeof_uint64_t), _instance with
  | true, Some c =>
      let remoteMicros := load_uint64 data in
      Some (Baseline._adjust c env remoteMicros)
  | _, _ => _instance
  end.

(** [_broadcast]. *)
Definition _broadcast (c : ESPNowMeshClock) (env : Env) : Effect :=
  let stamp := meshMicros c env in
  EspNowSend bcastAddr (store_uint64 stamp) sizeof_uint64_t.

End RawFrame.

(** ** Sequences of calls

    The host calls [loop] from its main loop and the radio delivers
    buffers to [handleReceive]; each call takes its own readings of the
    counters. *)

Inductive Event :=
| Receive (env : Env) (mac data : list byte) (len : Z)
| Tick (env : Env).

Definition event_env (ev : Event) : Env :=
  match ev with
  | Receive env _ _ _ => env
  | Tick env => env
  end.

Definition baseline_step (c : ESPNowMeshClock) (ev : Event) : ESPNowMeshClock :=
  match ev with
  | Receive env mac data len => snd (Baseline.handleReceive c env mac data len)
  | Tick env => fst (Baseline.loop c env)
  end.

Definition baseline_run (c : ESPNowMeshClock) (evs : list Event) : ESPNowMeshClock :=
  fold_left baseline_step evs c.

Definition forward_step (T : Z) (c : ESPNowMeshClock) (ev : Event) : ESPNowMeshClock :=
  match ev with
  | Receive env mac data len => snd (ForwardOnly.handleReceive c env mac data len)
  | Tick env => fst (ForwardOnly.loop T c env)
  end.

Definition forward_run (T : Z) (c : ESPNowMeshClock) (evs : list Event)
    : ESPNowMeshClock :=
  fold_left (forward_step T) evs c.

(** The number a list of bytes denotes, least significant byte first. *)
Fixpoint le_value (bs : list byte) : Z :=
  match bs with
  | [] => 0
  | b :: rest => u8 b + 2 ^ 8 * le_value rest
  end.

(** The timestamp a receiver reads from what was handed to the radio. *)
Definition sent_timestamp (e : Effect) : option Z :=
  match e with
  | EspNowSend _ data len => parse_packet data len
  | UserCallback _ _ _ _ => None
  end.

(** What is known of the shift record after [k] steps from the exact
    mantissa [M]: the mantissa is the quotient, and the round and sticky
    bits are clear when nothing was shifted out. *)
Definition shifted (M k : Z) (mrs : shr_record) : Prop :=
  shr_m mrs = M / 2 ^ k /\
  (M mod 2 ^ k = 0 -> shr_r mrs = false /\ shr_s mrs = false).

(** Two clock objects with the same constructor parameters and the same
    registered callback. *)
Definition same_configuration (c c' : ESPNowMeshClock) : Prop :=
  _interval c' = _interval c /\ _alpha c' = _alpha c /\
  _largeStep c' = _largeStep c /\ _syncTimeout c' = _syncTimeout c /\
  _randomVariation c' = _randomVariation c /\
  _userCallback c' = _userCallback c.

(** * Properties *)

(** Case analysis on the condition of the first conditional of the goal. *)
Ltac case_if :=
  match goal with
  | |- context [if ?b then _ else _] => destruct b
  end.

(** Positivity of a power of two. *)
Ltac pow2_pos := apply Z.pow_pos_nonneg; lia.

(** ** Fixed-width integers *)

Lemma wrap64_range z : 0 <= wrap64 z < 2 ^ 64.
Proof. unfold wrap64. apply Z.mod_pos_bound. lia. Qed.

Lemma wrap32_range z : 0 <= wrap32 z < 2 ^ 32.
Proof. unfold wrap32. apply Z.mod_pos_bound. lia. Qed.

Lemma wrap64_small z : 0 <= z < 2 ^ 64 -> wrap64 z = z.
Proof. intros H. unfold wrap64. apply Z.mod_small. exact H. Qed.

Lemma wrap32_small z : 0 <= z < 2 ^ 32 -> wrap32 z = z.
Proof. intros H. unfold wrap32. apply Z.mod_small. exact H. Qed.

Lemma wrap64_add_l a b : wrap64 (wrap64 a + b) = wrap64 (a + b).
Proof. unfold wrap64. apply Z.add_mod_idemp_l. lia. Qed.

Lemma wrap64_add_r a b : wrap64 (a + wrap64 b) = wrap64 (a + b).
Proof. unfold wrap64. apply Z.add_mod_idemp_r. lia. Qed.

Lemma to_int64_small z : - 2 ^ 63 <= z < 2 ^ 63 -> to_int64 z = z.
Proof.
  intros H. unfold to_int64, wrap64.
  destruct (Z.ltb_spec (z mod 2 ^ 64) (2 ^ 63)) as [L | L].
  - destruct (Z.neg_nonneg_cases z) as [N | N].
    + exfalso.
      assert (E : z mod 2 ^ 64 = z + 2 ^ 64).
      { symmetry. apply (Z.mod_unique_pos z (2 ^ 64) (-1)); lia. }
      lia.
    + apply Z.mod_small. lia.
  - destruct (Z.neg_nonneg_cases z) as [N | N].
    + assert (E : z mod 2 ^ 64 = z + 2 ^ 64).
      { symmetry. apply (Z.mod_unique_pos z (2 ^ 64) (-1)); lia. }
      lia.
    + exfalso. rewrite Z.mod_small in L; lia.
Qed.

Lemma abs64_small d : - 2 ^ 63 < d < 2 ^ 63 -> abs64 d = Z.abs d.
Proof.
  intros H. unfold abs64.
  destruct (Z.ltb_spec 0 d) as [P | P].
  - lia.
  - rewrite to_int64_small; lia.
Qed.

Lemma u8_range b : 0 <= u8 b < 2 ^ 8.
Proof.
  unfold u8. pose proof (Byte.to_N_bounded b) as H.
  change (2 ^ 8) with 256. lia.
Qed.

Lemma u8_to_u8 z : u8 (to_u8 z) = z mod 2 ^ 8.
Proof.
  unfold u8, to_u8.
  assert (R : 0 <= z mod 2 ^ 8 < 2 ^ 8) by (apply Z.mod_pos_bound; lia).
  destruct (Byte.of_N (Z.to_N (z mod 2 ^ 8))) as [b | ] eqn:E.
  - apply Byte.to_of_N in E. rewrite E. apply Z2N.id. lia.
  - apply Byte.of_N_None_iff in E. change (2 ^ 8) with 256 in *. lia.
Qed.

Lemma to_u8_u8 b : to_u8 (u8 b) = b.
Proof.
  unfold to_u8. rewrite Z.mod_small by apply u8_range.
  unfold u8. rewrite N2Z.id, Byte.of_to_N. reflexivity.
Qed.

Lemma u8_inj a b : u8 a = u8 b -> a = b.
Proof. intros H. rewrite <- (to_u8_u8 a), <- (to_u8_u8 b), H. reflexivity. Qed.

(** ** The packet codec *)

(** Bit [n] of the byte of [s] at bit position [k], put back in place. *)
Lemma byte_slice_testbit s k n :
  0 <= k -> 0 <= n ->
  Z.testbit (Z.shiftl (u8 (to_u8 (Z.land (Z.shiftr s k) 255))) k) n
  = Z.testbit s n && (k <=? n) && (n <? k + 8).
Proof.
  intros Hk Hn. rewrite u8_to_u8.
  destruct (Z.leb_spec k n) as [L | L].
  - rewrite Z.shiftl_spec by lia.
    rewrite Z.testbit_mod_pow2 by lia.
    rewrite Z.land_spec, Z.shiftr_spec by lia.
    replace (n - k + k) with n by lia.
    change 255 with (Z.ones 8).
    rewrite Z.testbit_ones by lia.
    destruct (Z.ltb_spec (n - k) 8), (Z.ltb_spec n (k + 8)),
      (Z.leb_spec 0 (n - k)), (Z.testbit s n); cbn [andb];
      try reflexivity; lia.
  - rewrite Z.shiftl_spec_low by lia.
    rewrite andb_false_r. reflexivity.
Qed.

Lemma unpack_pack_timestamp stamp :
  unpack_timestamp (pack_timestamp stamp) = stamp mod 2 ^ 56.
Proof.
  unfold unpack_timestamp, pack_timestamp, unpack_step.
  cbn [seq map fold_left nth Z.of_nat Pos.of_succ_nat Pos.succ Z.mul Pos.mul Pos.add].
  apply Z.bits_inj'. intros n Hn.
  rewrite !Z.lor_spec, !byte_slice_testbit by lia.
  rewrite Z.testbit_mod_pow2 by lia.
  rewrite Z.testbit_0_l.
  destruct (Z.testbit stamp n); cbn [andb orb].
  2: { rewrite andb_false_r. reflexivity. }
  repeat match goal with
         | |- context [?a <=? ?b] => destruct (Z.leb_spec a b); try lia
         | |- context [?a <? ?b] => destruct (Z.ltb_spec a b); try lia
         end; reflexivity.
Qed.

Lemma lor_below_pow2 a b n :
  0 <= n -> 0 <= a < 2 ^ n -> 0 <= b < 2 ^ n -> 0 <= Z.lor a b < 2 ^ n.
Proof.
  intros Hn Ha Hb.
  assert (N : 0 <= Z.lor a b) by (apply Z.lor_nonneg; lia).
  split; [exact N | ].
  destruct (Z.eq_dec (Z.lor a b) 0) as [E | E].
  - rewrite E. lia.
  - apply Z.log2_lt_pow2; [lia | ].
    rewrite Z.log2_lor by lia.
    assert (P : 0 < n).
    { destruct (Z.eq_dec n 0) as [Z0 | Z0]; [ | lia].
      subst n. change (2 ^ 0) with 1 in *.
      assert (a = 0) by lia. assert (b = 0) by lia. subst. now elim E. }
    apply Z.max_lub_lt.
    + destruct (Z.eq_dec a 0) as [-> | A]; [exact P | apply Z.log2_lt_pow2; lia].
    + destruct (Z.eq_dec b 0) as [-> | B]; [exact P | apply Z.log2_lt_pow2; lia].
Qed.

Lemma shifted_byte_range b k :
  0 <= k <= 48 -> 0 <= Z.shiftl (u8 b) k < 2 ^ 56.
Proof.
  intros Hk. rewrite Z.shiftl_mul_pow2 by lia.
  pose proof (u8_range b) as Hb.
  assert (P : 0 < 2 ^ k) by pow2_pos.
  assert (Q : 2 ^ 8 * 2 ^ k <= 2 ^ 56).
  { rewrite <- Z.pow_add_r by lia. apply Z.pow_le_mono_r; lia. }
  nia.
Qed.

(** The unpacked timestamp is a 56-bit value: the top eight bits of the
    64-bit result are zero. *)
Lemma unpack_timestamp_range ts : 0 <= unpack_timestamp ts < 2 ^ 56.
Proof.
  unfold unpack_timestamp, unpack_step.
  cbn [seq fold_left Z.of_nat Pos.of_succ_nat Pos.succ Z.mul Pos.mul Pos.add].
  repeat (apply lor_below_pow2; [lia | | apply shifted_byte_range; lia]).
  lia.
Qed.

Lemma parse_packet_range data len r :
  parse_packet data len = Some r -> 0 <= r < 2 ^ 56.
Proof.
  unfold parse_packet.
  destruct (len =? sizeof_MeshClockPacket); [ | discriminate].
  destruct (magic_ok (packet_of_data data)); [ | discriminate].
  intros H. injection H as <-. apply unpack_timestamp_range.
Qed.

Lemma timestamp_of_made_packet stamp :
  timestamp (packet_of_data (data_of_packet (make_packet stamp)))
  = pack_timestamp stamp.
Proof. reflexivity. Qed.

Lemma magic_of_made_packet stamp :
  magic_ok (packet_of_data (data_of_packet (make_packet stamp))) = true.
Proof. reflexivity. Qed.

Lemma length_of_made_packet stamp :
  length (data_of_packet (make_packet stamp)) = 10%nat.
Proof. reflexivity. Qed.

Lemma parse_made_packet stamp :
  parse_packet (data_of_packet (make_packet stamp)) sizeof_MeshClockPacket
  = Some (stamp mod 2 ^ 56).
Proof.
  unfold parse_packet. rewrite Z.eqb_refl, magic_of_made_packet.
  rewrite timestamp_of_made_packet, unpack_pack_timestamp. reflexivity.
Qed.

(** The test of [handleReceive] on the magic, byte by byte. *)
Lemma magic_ok_iff data :
  magic_ok (packet_of_data data) = true <->
  nth 0 data x00 = x4d /\ nth 1 data x00 = x43 /\ nth 2 data x00 = x4b.
Proof.
  unfold magic_ok, packet_of_data, MESHCLOCK_MAGIC_0, MESHCLOCK_MAGIC_1,
    MESHCLOCK_MAGIC_2.
  cbn [magic map seq nth].
  rewrite !andb_true_iff.
  split.
  - intros [[A B] C]. repeat split; now apply Byte.byte_dec_bl.
  - intros (A & B & C). rewrite A, B, C. repeat split.
Qed.

(** On a buffer as long as its announced length, the three leading bytes
    are the prefix of the buffer. *)
Lemma leading_bytes_prefix (data : list byte) a b c :
  (3 <= length data)%nat ->
  (nth 0 data x00 = a /\ nth 1 data x00 = b /\ nth 2 data x00 = c)
  <-> firstn 3 data = [a; b; c].
Proof.
  intros L.
  destruct data as [ | d0 [ | d1 [ | d2 rest]]]; cbn in L; try lia.
  cbn [nth firstn]. split.
  - intros (-> & -> & ->). reflexivity.
  - intros H. injection H as -> -> ->. repeat split.
Qed.

Lemma baseline_handleReceive_parse c env mac data len :
  Baseline.handleReceive c env mac data len =
  match parse_packet data len with
  | Some remoteMicros => (true, Baseline._adjust c env remoteMicros)
  | None => (false, c)
  end.
Proof.
  unfold Baseline.handleReceive, parse_packet.
  destruct (len =? sizeof_MeshClockPacket); [ | reflexivity].
  destruct (magic_ok (packet_of_data data)); reflexivity.
Qed.

Lemma forward_handleReceive_parse c env mac data len :
  ForwardOnly.handleReceive c env mac data len =
  match parse_packet data len with
  | Some remoteMicros => (true, ForwardOnly._adjust c env remoteMicros)
  | None => (false, c)
  end.
Proof.
  unfold ForwardOnly.handleReceive, parse_packet, magic_ok.
  destruct (len =? sizeof_MeshClockPacket); [ | reflexivity].
  cbn [negb].
  destruct (Byte.eqb (nth 0 (magic (packet_of_data data)) x00) MESHCLOCK_MAGIC_0),
    (Byte.eqb (nth 1 (magic (packet_of_data data)) x00) MESHCLOCK_MAGIC_1),
    (Byte.eqb (nth 2 (magic (packet_of_data data)) x00) MESHCLOCK_MAGIC_2);
    reflexivity.
Qed.

Lemma parse_packet_some_iff data len :
  (exists r, parse_packet data len = Some r) <->
  len = 10 /\ nth 0 data x00 = x4d /\ nth 1 data x00 = x43 /\ nth 2 data x00 = x4b.
Proof.
  unfold parse_packet, sizeof_MeshClockPacket.
  destruct (Z.eqb_spec len 10) as [E | E].
  - destruct (magic_ok (packet_of_data data)) eqn:M.
    + apply magic_ok_iff in M. split; [intros _; tauto | intros _; eauto].
    + split.
      * intros [r H]. discriminate.
      * intros [_ H]. apply magic_ok_iff in H. congruence.
  - split.
    + intros [r H]. discriminate.
    + intros [H _]. contradiction.
Qed.

(** ** The codec round trip *)

(** C5. For every stamp below 2^56, the 10-byte frame that [_broadcast]
    builds for it (the magic "MCK", then the low 56 bits of the stamp in
    little-endian order) is decoded by [handleReceive] to exactly that
    stamp: the frame is accepted, [_adjust] is called with the stamp, and
    the top 8 bits of the decoded 64-bit value are zero. *)
Theorem codec_round_trip (stamp : Z) :
  0 <= stamp < 2 ^ 56 ->
  let data := data_of_packet (make_packet stamp) in
  length data = 10%nat /\
  firstn 3 data = [x4d; x43; x4b] /\
  parse_packet data 10 = Some stamp /\
  (forall c env mac,
      Baseline.handleReceive c env mac data 10
      = (true, Baseline._adjust c env stamp)) /\
  Z.shiftr (unpack_timestamp (timestamp (packet_of_data data))) 56 = 0.
Proof.
  intros H data.
  assert (P : parse_packet data 10 = Some stamp).
  { unfold data. change 10 with sizeof_MeshClockPacket.
    rewrite parse_made_packet, Z.mod_small by exact H. reflexivity. }
  repeat split.
  - exact P.
  - intros c env mac. rewrite baseline_handleReceive_parse, P. reflexivity.
  - apply Z.shiftr_eq_0_iff.
    pose proof (unpack_timestamp_range (timestamp (packet_of_data data))) as R.
    destruct (Z.eq_dec (unpack_timestamp (timestamp (packet_of_data data))) 0)
      as [E | E]; [left; exact E | right].
    split; [lia | ]. apply Z.log2_lt_pow2; lia.
Qed.

Lemma codec_round_trip_witness :
  0 <= 2100000 < 2 ^ 56 /\
  parse_packet (data_of_packet (make_packet 2100000)) 10 = Some 2100000.
Proof.
  split; [lia | ].
  apply (codec_round_trip 2100000). lia.
Defined.

(** Whatever the stamp, the decoded value is the stamp modulo 2^56: the
    top byte of a 64-bit stamp is dropped by the frame. *)
Lemma codec_keeps_low_56_bits (stamp : Z) c env mac :
  Baseline.handleReceive c env mac (data_of_packet (make_packet stamp)) 10
  = (true, Baseline._adjust c env (stamp mod 2 ^ 56)).
Proof.
  rewrite baseline_handleReceive_parse.
  change 10 with sizeof_MeshClockPacket.
  rewrite parse_made_packet. reflexivity.
Qed.

(** ** Frame discrimination *)

Lemma baseline_handled_iff_bytes c env mac data len :
  fst (Baseline.handleReceive c env mac data len) = true <->
  len = 10 /\ nth 0 data x00 = x4d /\ nth 1 data x00 = x43 /\ nth 2 data x00 = x4b.
Proof.
  rewrite baseline_handleReceive_parse, <- parse_packet_some_iff.
  destruct (parse_packet data len) as [r | ]; cbn [fst]; split.
  - intros _. eauto.
  - reflexivity.
  - discriminate.
  - intros [r H]. discriminate.
Qed.

(** The same, on a buffer whose announced length is its length. *)
Lemma baseline_handled_iff_prefix c env (mac data : list byte) (len : Z) :
  len = Z.of_nat (length data) ->
  fst (Baseline.handleReceive c env mac data len) = true <->
  length data = 10%nat /\ firstn 3 data = [x4d; x43; x4b].
Proof.
  intros L. rewrite baseline_handled_iff_bytes. split.
  - intros [E B]. assert (N : length data = 10%nat) by lia.
    split; [exact N | ]. apply leading_bytes_prefix; [lia | exact B].
  - intros [N B]. split; [lia | ].
    apply leading_bytes_prefix; [lia | exact B].
Qed.

(** C3. For every source address, buffer and length (the length being that
    of the buffer), [handleReceive] returns true if and only if the buffer
    has exactly 10 bytes and its first three bytes are 0x4D 0x43 0x4B;
    any other length and any other leading bytes give false. *)
Theorem handleReceive_true_iff_clock_frame c env (mac data : list byte) (len : Z) :
  len = Z.of_nat (length data) ->
  (fst (Baseline.handleReceive c env mac data len) = true <->
   length data = 10%nat /\ firstn 3 data = [x4d; x43; x4b]) /\
  (fst (Baseline.handleReceive c env mac data len) = false <->
   length data <> 10%nat \/ firstn 3 data <> [x4d; x43; x4b]).
Proof.
  intros L.
  pose proof (baseline_handled_iff_prefix c env mac data len L) as T.
  split; [exact T | ].
  destruct (fst (Baseline.handleReceive c env mac data len)).
  - split; [discriminate | ].
    intros [N | N]; exfalso; apply N; apply T; reflexivity.
  - split; [ | reflexivity]. intros _.
    destruct (Nat.eq_dec (length data) 10) as [N | N]; [ | left; exact N].
    right. intros B. assert (F : false = true) by (apply T; split; assumption).
    discriminate.
Qed.

Lemma handleReceive_true_iff_clock_frame_witness :
  10 = Z.of_nat (length (data_of_packet (make_packet 2100000))) /\
  fst (Baseline.handleReceive default_clock
         {| clock_us := 100000; millis := 0; random := fun lo _ => lo |}
         bcastAddr (data_of_packet (make_packet 2100000)) 10) = true.
Proof.
  split; [reflexivity | ].
  apply (handleReceive_true_iff_clock_frame default_clock
           {| clock_us := 100000; millis := 0; random := fun lo _ => lo |}
           bcastAddr (data_of_packet (make_packet 2100000)) 10);
    [reflexivity | split; reflexivity].
Defined.

(** The revision with early returns accepts the same buffers. *)
Lemma forward_handled_iff_bytes c env mac data len :
  fst (ForwardOnly.handleReceive c env mac data len) = true <->
  len = 10 /\ nth 0 data x00 = x4d /\ nth 1 data x00 = x43 /\ nth 2 data x00 = x4b.
Proof.
  rewrite forward_handleReceive_parse, <- parse_packet_some_iff.
  destruct (parse_packet data len) as [r | ]; cbn [fst]; split.
  - intros _. eauto.
  - reflexivity.
  - discriminate.
  - intros [r H]. discriminate.
Qed.

(** ** The sync state *)

(** C4. [getSyncState] returns ALONE iff [_synced] is false, LOST iff
    [_synced] is true and the 32-bit difference [millis() - _lastSync]
    is strictly greater than [_syncTimeout], and SYNCED iff [_synced] is
    true and that difference is at most [_syncTimeout].  The state is
    computed from these three fields and the current reading alone: the
    function returns a value and stores nothing. *)
Theorem sync_state_derivation (c : ESPNowMeshClock) (env : Env) :
  (getSyncState c env = ALONE <-> _synced c = false) /\
  (getSyncState c env = LOST <->
   _synced c = true /\ wrap32 (millis env - _lastSync c) > _syncTimeout c) /\
  (getSyncState c env = SYNCED <->
   _synced c = true /\ wrap32 (millis env - _lastSync c) <= _syncTimeout c) /\
  (forall c' env',
      _synced c' = _synced c -> _lastSync c' = _lastSync c ->
      _syncTimeout c' = _syncTimeout c -> millis env' = millis env ->
      getSyncState c' env' = getSyncState c env).
Proof.
  unfold getSyncState.
  repeat split.
  - destruct (_synced c); cbn [negb]; [ | reflexivity].
    destruct (wrap32 (millis env - _lastSync c) >? _syncTimeout c); discriminate.
  - intros ->. reflexivity.
  - destruct (_synced c); cbn [negb] in *; [reflexivity | discriminate].
  - destruct (_synced c); cbn [negb] in *; [ | discriminate].
    destruct (Z.gtb_spec (wrap32 (millis env - _lastSync c)) (_syncTimeout c));
      [lia | discriminate].
  - intros [-> G]. cbn [negb].
    destruct (Z.gtb_spec (wrap32 (millis env - _lastSync c)) (_syncTimeout c));
      [reflexivity | lia].
  - destruct (_synced c); cbn [negb] in *; [reflexivity | discriminate].
  - destruct (_synced c); cbn [negb] in *; [ | discriminate].
    destruct (Z.gtb_spec (wrap32 (millis env - _lastSync c)) (_syncTimeout c));
      [discriminate | lia].
  - intros [-> G]. cbn [negb].
    destruct (Z.gtb_spec (wrap32 (millis env - _lastSync c)) (_syncTimeout c));
      [lia | reflexivity].
  - intros c' env' -> -> -> ->. reflexivity.
Qed.

(** ** Frames that are not clock frames *)

(** C9. A buffer that is not a clock frame (wrong length or wrong magic)
    leaves the clock object as it was, in particular [_offset], [_synced]
    and [_lastSync]; [handleReceive] returns false; and [_onReceive], the
    callback the library registers when it owns the radio, calls the user
    callback once with the same source address, bytes and length when one
    is registered, and does nothing otherwise. *)
Theorem non_clock_frame_passes_through c env (mac data : list byte) (len : Z) :
  len = Z.of_nat (length data) ->
  length data <> 10%nat \/ firstn 3 data <> [x4d; x43; x4b] ->
  Baseline.handleReceive c env mac data len = (false, c) /\
  (let c' := snd (Baseline.handleReceive c env mac data len) in
   _offset c' = _offset c /\ _synced c' = _synced c /\ _lastSync c' = _lastSync c) /\
  Baseline._onReceive (Some c) env mac data len
  = (Some c,
     match _userCallback c with
     | Some cb => [UserCallback cb mac data len]
     | None => []
     end).
Proof.
  intros L N.
  assert (F : fst (Baseline.handleReceive c env mac data len) = false).
  { pose proof (baseline_handled_iff_prefix c env mac data len L) as T.
    destruct (fst (Baseline.handleReceive c env mac data len)); [ | reflexivity].
    exfalso. destruct T as [T _]. destruct (T eq_refl) as [A B].
    destruct N as [N | N]; apply N; assumption. }
  assert (E : Baseline.handleReceive c env mac data len = (false, c)).
  { rewrite baseline_handleReceive_parse in *.
    destruct (parse_packet data len); [discriminate | reflexivity]. }
  split; [exact E | ]. split.
  - rewrite E. cbn [snd]. repeat split.
  - unfold Baseline._onReceive. rewrite E. cbn [negb].
    destruct (_userCallback c); reflexivity.
Qed.

Lemma non_clock_frame_passes_through_witness :
  32 = Z.of_nat (length (repeat x2a 32)) /\
  Baseline._onReceive (Some (setUserCallback default_clock (Some 7%positive)))
    {| clock_us := 100000; millis := 40; random := fun lo _ => lo |}
    bcastAddr (repeat x2a 32) 32
  = (Some (setUserCallback default_clock (Some 7%positive)),
     [UserCallback 7%positive bcastAddr (repeat x2a 32) 32]).
Proof.
  split; [reflexivity | ].
  apply (non_clock_frame_passes_through
           (setUserCallback default_clock (Some 7%positive))
           {| clock_us := 100000; millis := 40; random := fun lo _ => lo |}
           bcastAddr (repeat x2a 32) 32).
  - reflexivity.
  - left. cbn. lia.
Defined.

(** A clock frame is never handed to the user callback. *)
Lemma clock_frame_not_forwarded c env mac data len :
  fst (Baseline.handleReceive c env mac data len) = true ->
  snd (Baseline._onReceive (Some c) env mac data len) = [].
Proof.
  intros H. unfold Baseline._onReceive.
  destruct (Baseline.handleReceive c env mac data len) as [handled c'].
  cbn [fst] in H. subst handled. cbn [negb]. reflexivity.
Qed.

(** ** The broadcast scheduler *)

Lemma variation_bounds c :
  is_u16 (_interval c) -> 0 <= _randomVariation c <= 100 ->
  0 <= _interval c * _randomVariation c / 100 <= _interval c.
Proof.
  intros [I0 I1] [V0 V1]. split.
  - apply Z.div_pos; nia.
  - apply Z.div_le_upper_bound; nia.
Qed.

(** C8. On a tick with [_nextBroadcastDelay] equal to 0, a delay
    [_interval + r] is drawn with [r] in [-variation, +variation], where
    [variation = _interval * _randomVariation / 100]; the delay lies in
    [_interval - variation, _interval + variation].  Whenever the 32-bit
    difference [millis() - _lastBroadcast] is at least the delay in force,
    the tick stores [_lastBroadcast = millis()], resets
    [_nextBroadcastDelay] to 0 (so that the next tick draws again) and
    hands exactly one frame to the radio; otherwise it sends nothing and
    keeps the delay. *)
Theorem loop_draws_and_broadcasts (c : ESPNowMeshClock) (env : Env) :
  is_u16 (_interval c) ->
  0 <= _randomVariation c <= 100 ->
  random_ok env ->
  let variation := _interval c * _randomVariation c / 100 in
  exists delay,
    (_nextBroadcastDelay c = 0 ->
     exists r, - variation <= r <= variation /\
               r = random env (- variation) (variation + 1) /\
               delay = _interval c + r /\
               _interval c - variation <= delay <= _interval c + variation) /\
    (_nextBroadcastDelay c <> 0 -> delay = _nextBroadcastDelay c) /\
    (wrap32 (millis env - _lastBroadcast c) >= delay ->
     _lastBroadcast (fst (Baseline.loop c env)) = millis env /\
     _nextBroadcastDelay (fst (Baseline.loop c env)) = 0 /\
     snd (Baseline.loop c env)
     = [EspNowSend bcastAddr (data_of_packet (make_packet (meshMicros c env))) 10]) /\
    (wrap32 (millis env - _lastBroadcast c) < delay ->
     _lastBroadcast (fst (Baseline.loop c env)) = _lastBroadcast c /\
     _nextBroadcastDelay (fst (Baseline.loop c env)) = delay /\
     snd (Baseline.loop c env) = []) /\
    _offset (fst (Baseline.loop c env)) = _offset c /\
    _synced (fst (Baseline.loop c env)) = _synced c /\
    _lastSync (fst (Baseline.loop c env)) = _lastSync c.
Proof.
  intros HI HV HR variation.
  pose proof (variation_bounds c HI HV) as VB. fold variation in VB.
  unfold Baseline.loop. fold variation.
  destruct (Z.eqb_spec (_nextBroadcastDelay c) 0) as [Z0 | NZ].
  - set (r := random env (- variation) (variation + 1)).
    assert (R : - variation <= r < variation + 1) by (apply HR; lia).
    assert (W : wrap32 (_interval c + r) = _interval c + r).
    { apply wrap32_small. unfold is_u16 in HI. lia. }
    exists (_interval c + r). rewrite W.
    split; [intros _; exists r; repeat split; lia | ].
    split; [intros N; contradiction | ].
    cbn [_lastBroadcast _nextBroadcastDelay set_nextBroadcastDelay].
    destruct (Z.geb_spec (wrap32 (millis env - _lastBroadcast c)) (_interval c + r))
      as [G | G]; cbn [fst snd]; repeat split; try reflexivity; lia.
  - exists (_nextBroadcastDelay c).
    split; [intros E; contradiction | ].
    split; [reflexivity | ].
    destruct (Z.geb_spec (wrap32 (millis env - _lastBroadcast c)) (_nextBroadcastDelay c))
      as [G | G]; cbn [fst snd]; repeat split; try reflexivity; lia.
Qed.

Lemma loop_draws_and_broadcasts_witness :
  is_u16 (_interval default_clock) /\
  0 <= _randomVariation default_clock <= 100 /\
  snd (Baseline.loop default_clock
         {| clock_us := 5000; millis := 1100; random := fun _ hi => hi - 1 |})
  = [EspNowSend bcastAddr (data_of_packet (make_packet 5000)) 10].
Proof.
  assert (HI : is_u16 (_interval default_clock)).
  { unfold is_u16, default_clock, construct. cbn [_interval]. lia. }
  assert (HV : 0 <= _randomVariation default_clock <= 100).
  { unfold default_clock, construct. cbn [_randomVariation]. lia. }
  assert (HR : random_ok {| clock_us := 5000; millis := 1100;
                            random := fun _ hi => hi - 1 |}).
  { intros lo hi H. cbn [random]. lia. }
  split; [exact HI | ]. split; [exact HV | ].
  destruct (loop_draws_and_broadcasts default_clock _ HI HV HR)
    as (delay & D0 & _ & Due & _).
  destruct (D0 eq_refl) as (r & _ & Hr & Hd & _).
  cbn in Hr. subst r delay.
  apply Due. vm_compute. discriminate.
Defined.

(** ** The clock adjustment *)

Lemma wrap64_cancel x r : wrap64 (x + (r - wrap64 x)) = wrap64 r.
Proof.
  unfold wrap64.
  rewrite (Z.div_mod x (2 ^ 64)) at 1 by lia.
  replace (2 ^ 64 * (x / 2 ^ 64) + x mod 2 ^ 64 + (r - x mod 2 ^ 64))
    with (r + (x / 2 ^ 64) * 2 ^ 64) by ring.
  apply Z.mod_add. lia.
Qed.

(** The mesh time right after the offset has been moved by [d]. *)
Lemma meshMicros_after_step c env d :
  wrap64 (clock_us env + wrap64 (_offset c + d)) = wrap64 (meshMicros c env + d).
Proof.
  unfold meshMicros. rewrite wrap64_add_r, wrap64_add_l. f_equal. ring.
Qed.

(** The signed difference computed by [_adjust], for a remote stamp that
    is ahead of the local mesh time. *)
Lemma delta_when_ahead c env remoteMicros :
  0 <= remoteMicros < 2 ^ 56 ->
  remoteMicros > meshMicros c env ->
  to_int64 (remoteMicros - wrap64 (clock_us env + _offset c))
  = remoteMicros - meshMicros c env.
Proof.
  intros R A. unfold meshMicros in *.
  pose proof (wrap64_range (clock_us env + _offset c)) as L.
  apply to_int64_small. lia.
Qed.

(** The signed difference for a remote stamp that is not ahead, the local
    mesh time being below 2^63. *)
Lemma delta_when_behind c env remoteMicros :
  0 <= remoteMicros < 2 ^ 56 ->
  meshMicros c env < 2 ^ 63 ->
  to_int64 (remoteMicros - wrap64 (clock_us env + _offset c))
  = remoteMicros - meshMicros c env.
Proof.
  intros R A. unfold meshMicros in *.
  pose proof (wrap64_range (clock_us env + _offset c)) as L.
  apply to_int64_small. lia.
Qed.

Lemma baseline_adjust_large_forward c env remoteMicros :
  0 <= remoteMicros < 2 ^ 56 ->
  _synced c = false \/ Z.abs (remoteMicros - meshMicros c env) > _largeStep c ->
  remoteMicros > meshMicros c env ->
  Baseline._adjust c env remoteMicros
  = set_synced
      (set_offset (set_lastSync c (millis env))
         (wrap64 (_offset c + (remoteMicros - meshMicros c env)))) true.
Proof.
  intros R B A. unfold Baseline._adjust.
  rewrite (delta_when_ahead c env remoteMicros R A).
  cbn [_synced _offset _largeStep set_lastSync].
  pose proof (wrap64_range (clock_us env + _offset c)) as L.
  fold (meshMicros c env) in L.
  rewrite abs64_small by lia.
  destruct B as [-> | B]; [reflexivity | ].
  destruct (Z.gtb_spec (Z.abs (remoteMicros - meshMicros c env)) (_largeStep c));
    [ | lia].
  rewrite orb_true_r. reflexivity.
Qed.

Lemma forward_adjust_large_forward c env remoteMicros :
  0 <= remoteMicros < 2 ^ 56 ->
  _synced c = false \/ Z.abs (remoteMicros - meshMicros c env) > _largeStep c ->
  remoteMicros > meshMicros c env ->
  ForwardOnly._adjust c env remoteMicros
  = set_synced
      (set_offset (set_lastSync c (millis env))
         (wrap64 (_offset c + (remoteMicros - meshMicros c env)))) true.
Proof.
  intros R B A. unfold ForwardOnly._adjust.
  rewrite (delta_when_ahead c env remoteMicros R A).
  cbn [_synced _offset _largeStep set_lastSync].
  pose proof (wrap64_range (clock_us env + _offset c)) as L.
  fold (meshMicros c env) in L.
  rewrite abs64_small by lia.
  destruct (Z.gtb_spec (remoteMicros - meshMicros c env) 0); [ | lia].
  destruct B as [-> | B]; [reflexivity | ].
  destruct (Z.gtb_spec (Z.abs (remoteMicros - meshMicros c env)) (_largeStep c));
    [ | lia].
  rewrite orb_true_r. reflexivity.
Qed.

(** C2. For every received clock frame whose stamp [remote] is ahead of
    the local mesh time [local], when [_synced] is false or
    [|remote - local|] exceeds [_largeStep], the offset is increased by
    exactly [remote - local] (in 64-bit arithmetic) and [meshMicros()]
    read at the same counter value equals [remote]; read [t] counter
    ticks later it equals [remote + t]. *)
Theorem large_step_jumps_to_remote c env (mac data : list byte) (len remote : Z) :
  parse_packet data len = Some remote ->
  let local := meshMicros c env in
  _synced c = false \/ Z.abs (remote - local) > _largeStep c ->
  remote > local ->
  let c' := snd (Baseline.handleReceive c env mac data len) in
  fst (Baseline.handleReceive c env mac data len) = true /\
  _offset c' = wrap64 (_offset c + (remote - local)) /\
  meshMicros c' env = remote /\
  _synced c' = true /\
  (forall env', meshMicros c' env'
                = wrap64 (remote + (clock_us env' - clock_us env))).
Proof.
  intros P local B A c'.
  pose proof (parse_packet_range data len remote P) as R.
  assert (E : Baseline.handleReceive c env mac data len
              = (true, Baseline._adjust c env remote)).
  { rewrite baseline_handleReceive_parse, P. reflexivity. }
  unfold c'. rewrite E.
  rewrite (baseline_adjust_large_forward c env remote R B A).
  cbn [fst snd _offset _synced set_synced set_offset set_lastSync].
  fold local.
  assert (M : forall env',
             meshMicros
               (set_synced
                  (set_offset (set_lastSync c (millis env))
                     (wrap64 (_offset c + (remote - local)))) true) env'
             = wrap64 (remote + (clock_us env' - clock_us env))).
  { intros env'. unfold meshMicros at 1.
    cbn [_offset set_synced set_offset set_lastSync].
    rewrite wrap64_add_r. unfold local, meshMicros.
    replace (clock_us env' + (_offset c + (remote - wrap64 (clock_us env + _offset c))))
      with ((clock_us env + _offset c)
            + ((remote + (clock_us env' - clock_us env))
               - wrap64 (clock_us env + _offset c))) by ring.
    apply wrap64_cancel. }
  repeat split.
  - rewrite M. replace (remote + (clock_us env - clock_us env)) with remote by ring.
    apply wrap64_small. lia.
  - exact M.
Qed.

Lemma large_step_jumps_to_remote_witness :
  parse_packet (data_of_packet (make_packet 2100000)) 10 = Some 2100000 /\
  meshMicros
    (snd (Baseline.handleReceive default_clock
            {| clock_us := 100000; millis := 40; random := fun lo _ => lo |}
            bcastAddr (data_of_packet (make_packet 2100000)) 10))
    {| clock_us := 100000; millis := 40; random := fun lo _ => lo |}
  = 2100000.
Proof.
  assert (P : parse_packet (data_of_packet (make_packet 2100000)) 10 = Some 2100000)
    by reflexivity.
  split; [exact P | ].
  apply (large_step_jumps_to_remote default_clock
           {| clock_us := 100000; millis := 40; random := fun lo _ => lo |}
           bcastAddr (data_of_packet (make_packet 2100000)) 10 2100000 P).
  - left. reflexivity.
  - vm_compute. reflexivity.
Defined.

(** The same jump in the revision whose large step is forward-only. *)
Lemma forward_large_step_jumps_to_remote c env (mac data : list byte) (len remote : Z) :
  parse_packet data len = Some remote ->
  _synced c = false \/ Z.abs (remote - meshMicros c env) > _largeStep c ->
  remote > meshMicros c env ->
  let c' := snd (ForwardOnly.handleReceive c env mac data len) in
  _offset c' = wrap64 (_offset c + (remote - meshMicros c env)) /\
  meshMicros c' env = remote /\
  _synced c' = true.
Proof.
  intros P B A c'.
  pose proof (parse_packet_range data len remote P) as R.
  unfold c'. rewrite forward_handleReceive_parse, P. cbn [snd].
  rewrite (forward_adjust_large_forward c env remote R B A).
  cbn [_offset _synced set_synced set_offset set_lastSync].
  repeat split.
  unfold meshMicros at 1. cbn [_offset set_synced set_offset set_lastSync].
  rewrite wrap64_add_r. unfold meshMicros.
  replace (clock_us env + (_offset c + (remote - wrap64 (clock_us env + _offset c))))
    with ((clock_us env + _offset c)
          + (remote - wrap64 (clock_us env + _offset c))) by ring.
  rewrite wrap64_cancel. apply wrap64_small. lia.
Qed.

(** *** The large step of src/ESPNowMeshClock.cpp is not forward-only *)

(** C1 (the code departs from the claim).  In src/ESPNowMeshClock.cpp the
    large-step branch of [_adjust] adds the signed delta whatever its
    sign.  Two receptions of a valid clock frame whose stamp is behind
    the local mesh time: a clock that is not yet synced (local 1000000,
    remote 999500) gets the offset 2^64 - 500 and its mesh time steps
    back to 999500; a synced clock with offset 50000 (local 1050000,
    remote 1000000, beyond the threshold 10000) gets the offset 0. *)
Theorem baseline_large_step_moves_offset_back :
  let env := {| clock_us := 1000000; millis := 40; random := fun lo _ => lo |} in
  let fresh := default_clock in
  let fresh' := snd (Baseline.handleReceive fresh env bcastAddr
                       (data_of_packet (make_packet 999500)) 10) in
  let synced := set_synced (set_offset default_clock 50000) true in
  let synced' := snd (Baseline.handleReceive synced env bcastAddr
                        (data_of_packet (make_packet 1000000)) 10) in
  (parse_packet (data_of_packet (make_packet 999500)) 10 = Some 999500 /\
   999500 < meshMicros fresh env /\
   _offset fresh = 0 /\
   _offset fresh' = 2 ^ 64 - 500 /\
   meshMicros fresh' env = 999500) /\
  (parse_packet (data_of_packet (make_packet 1000000)) 10 = Some 1000000 /\
   1000000 < meshMicros synced env /\
   - (1000000 - meshMicros synced env) > _largeStep synced /\
   _offset synced = 50000 /\
   _offset synced' = 0 /\
   meshMicros synced' env < meshMicros synced env).
Proof. vm_compute. repeat split. Qed.

(** In the revision whose large step is forward-only, a remote stamp that
    is not ahead of the local mesh time never changes the offset, synced
    or not, beyond the threshold or not (the local mesh time being below
    2^63, that is, the 64-bit counter not having wrapped). *)
Lemma forward_adjust_keeps_offset c env remoteMicros :
  0 <= remoteMicros < 2 ^ 56 ->
  meshMicros c env < 2 ^ 63 ->
  remoteMicros <= meshMicros c env ->
  _offset (ForwardOnly._adjust c env remoteMicros) = _offset c /\
  _synced (ForwardOnly._adjust c env remoteMicros) = true /\
  _lastSync (ForwardOnly._adjust c env remoteMicros) = millis env.
Proof.
  intros R L B. unfold ForwardOnly._adjust.
  rewrite (delta_when_behind c env remoteMicros R L).
  pose proof (wrap64_range (clock_us env + _offset c)) as W.
  fold (meshMicros c env) in W.
  rewrite abs64_small by lia.
  cbn [_synced _offset _largeStep set_lastSync].
  destruct (Z.gtb_spec (remoteMicros - meshMicros c env) 0) as [G | G]; [lia | ].
  destruct (_synced c) eqn:S; cbn [negb orb].
  - destruct (Z.abs (remoteMicros - meshMicros c env) >? _largeStep c);
      cbn [_offset _synced _lastSync set_synced set_lastSync];
      repeat split; exact S.
  - cbn [_offset _synced _lastSync set_synced set_lastSync]. repeat split.
Qed.

Lemma forward_handleReceive_keeps_offset c env mac data len remote :
  parse_packet data len = Some remote ->
  meshMicros c env < 2 ^ 63 ->
  remote < meshMicros c env ->
  _offset (snd (ForwardOnly.handleReceive c env mac data len)) = _offset c.
Proof.
  intros P L B. rewrite forward_handleReceive_parse, P. cbn [snd].
  apply forward_adjust_keeps_offset;
    [exact (parse_packet_range data len remote P) | exact L | lia].
Qed.

(** The two receptions above, in the forward-only revision. *)
Lemma forward_large_step_keeps_offset_examples :
  let env := {| clock_us := 1000000; millis := 40; random := fun lo _ => lo |} in
  let synced := set_synced (set_offset default_clock 50000) true in
  _offset (snd (ForwardOnly.handleReceive default_clock env bcastAddr
                  (data_of_packet (make_packet 999500)) 10)) = 0 /\
  _offset (snd (ForwardOnly.handleReceive synced env bcastAddr
                  (data_of_packet (make_packet 1000000)) 10)) = 50000.
Proof. vm_compute. split; reflexivity. Qed.

(** ** The outgoing stamp *)

Lemma forward_broadcast_timestamp T c env :
  sent_timestamp (ForwardOnly._broadcast T c env)
  = Some ((meshMicros c env + T) mod 2 ^ 56).
Proof.
  unfold ForwardOnly._broadcast, sent_timestamp.
  rewrite parse_made_packet. f_equal.
  unfold wrap64.
  rewrite <- (Z.land_ones _ 64), <- !(Z.land_ones _ 56) by lia.
  rewrite <- Z.land_assoc. reflexivity.
Qed.

Lemma baseline_broadcast_is_zero_delay c env :
  Baseline._broadcast c env = ForwardOnly._broadcast 0 c env.
Proof.
  unfold Baseline._broadcast, ForwardOnly._broadcast.
  rewrite Z.add_0_r.
  rewrite (wrap64_small (meshMicros c env)) by apply wrap64_range.
  reflexivity.
Qed.

(** C6 (counterexample).  [_broadcast] of src/ESPNowMeshClock.cpp stamps
    the frame with [meshMicros()] itself: at mesh time 5000 the frame
    carries 5000, not 5000 + 1000. *)
Lemma baseline_broadcast_adds_no_delay :
  let env := {| clock_us := 5000; millis := 1100; random := fun lo _ => lo |} in
  meshMicros default_clock env = 5000 /\
  snd (Baseline.loop default_clock env) = [Baseline._broadcast default_clock env] /\
  sent_timestamp (Baseline._broadcast default_clock env) = Some 5000 /\
  sent_timestamp (Baseline._broadcast default_clock env)
  <> Some (meshMicros default_clock env + 1000).
Proof. vm_compute. repeat split. discriminate. Qed.

(** C6 (as amended).  In the revision that defines
    [TRANSMISSION_DELAY_US] (1000 microseconds unless the build defines
    it otherwise) the frame [_broadcast] hands to the radio carries the
    stamp [meshMicros() + TRANSMISSION_DELAY_US] taken at the moment of
    emission, and a build with the delay 0 stamps the frame with
    [meshMicros()] exactly.  [_broadcast] of src/ESPNowMeshClock.cpp adds
    no delay: it sends the frame of the zero-delay build.  In both, the
    frame holds the low 56 bits of the stamp, and [loop] sends nothing
    but that frame. *)
Theorem broadcast_stamp_is_mesh_time_plus_delay (T : Z) c env :
  0 <= meshMicros c env + T < 2 ^ 56 ->
  meshMicros c env < 2 ^ 56 ->
  sent_timestamp (ForwardOnly._broadcast T c env) = Some (meshMicros c env + T) /\
  ForwardOnly.DEFAULT_TRANSMISSION_DELAY_US = 1000 /\
  sent_timestamp (ForwardOnly._broadcast 0 c env) = Some (meshMicros c env) /\
  Baseline._broadcast c env = ForwardOnly._broadcast 0 c env /\
  sent_timestamp (Baseline._broadcast c env) = Some (meshMicros c env) /\
  (forall e, In e (snd (ForwardOnly.loop T c env)) ->
             e = ForwardOnly._broadcast T c env) /\
  (forall e, In e (snd (Baseline.loop c env)) -> e = Baseline._broadcast c env).
Proof.
  intros H H0.
  pose proof (wrap64_range (clock_us env + _offset c)) as W.
  fold (meshMicros c env) in W.
  assert (Z0 : sent_timestamp (ForwardOnly._broadcast 0 c env)
               = Some (meshMicros c env)).
  { rewrite forward_broadcast_timestamp, Z.add_0_r, Z.mod_small by lia.
    reflexivity. }
  repeat split.
  - rewrite forward_broadcast_timestamp, Z.mod_small by exact H. reflexivity.
  - exact Z0.
  - apply baseline_broadcast_is_zero_delay.
  - rewrite baseline_broadcast_is_zero_delay. exact Z0.
  - intros e. unfold ForwardOnly.loop.
    destruct (_nextBroadcastDelay c =? 0);
    case_if; cbn [snd In]; try tauto; intros [<- | []]; reflexivity.
  - intros e. unfold Baseline.loop.
    destruct (_nextBroadcastDelay c =? 0);
    case_if; cbn [snd In]; try tauto; intros [<- | []]; reflexivity.
Qed.

Lemma broadcast_stamp_is_mesh_time_plus_delay_witness :
  let env := {| clock_us := 5000; millis := 1100; random := fun lo _ => lo |} in
  0 <= meshMicros default_clock env
       + ForwardOnly.DEFAULT_TRANSMISSION_DELAY_US < 2 ^ 56 /\
  meshMicros default_clock env < 2 ^ 56 /\
  sent_timestamp
    (ForwardOnly._broadcast ForwardOnly.DEFAULT_TRANSMISSION_DELAY_US
       default_clock env)
  = Some 6000.
Proof.
  intros env.
  assert (H : 0 <= meshMicros default_clock env
                   + ForwardOnly.DEFAULT_TRANSMISSION_DELAY_US < 2 ^ 56)
    by (vm_compute; split; [discriminate | reflexivity]).
  assert (H0 : meshMicros default_clock env < 2 ^ 56) by (vm_compute; reflexivity).
  split; [exact H | ]. split; [exact H0 | ].
  apply (broadcast_stamp_is_mesh_time_plus_delay
           ForwardOnly.DEFAULT_TRANSMISSION_DELAY_US default_clock env H H0).
Defined.

(** ** Single-precision arithmetic: facts about the binary32 operations *)

Module Float32Facts.

(** The number of binary digits of a positive number. *)
Lemma digits2_pos_bounds (p : positive) :
  2 ^ (Zpos (digits2_pos p) - 1) <= Zpos p < 2 ^ Zpos (digits2_pos p).
Proof.
  induction p as [p IH | p IH | ]; cbn [digits2_pos].
  - rewrite Pos2Z.inj_succ.
    replace (Z.succ (Zpos (digits2_pos p)) - 1) with (Z.succ (Zpos (digits2_pos p) - 1))
      by lia.
    rewrite !Z.pow_succ_r by lia. lia.
  - rewrite Pos2Z.inj_succ.
    replace (Z.succ (Zpos (digits2_pos p)) - 1) with (Z.succ (Zpos (digits2_pos p) - 1))
      by lia.
    rewrite !Z.pow_succ_r by lia. lia.
  - cbn. lia.
Qed.

Lemma digits2_pos_upper (p : positive) (d : Z) :
  Zpos p < 2 ^ d -> Zpos (digits2_pos p) <= d.
Proof.
  intros H. pose proof (digits2_pos_bounds p) as [L _].
  destruct (Z.le_gt_cases (Zpos (digits2_pos p)) d) as [ | G]; [assumption | exfalso].
  assert (2 ^ d <= 2 ^ (Zpos (digits2_pos p) - 1)).
  { apply Z.pow_le_mono_r; lia. }
  lia.
Qed.

Lemma digits2_pos_unique (p : positive) (d : Z) :
  2 ^ (d - 1) <= Zpos p < 2 ^ d -> Zpos (digits2_pos p) = d.
Proof.
  intros [L U]. pose proof (digits2_pos_bounds p) as [L' U'].
  pose proof (digits2_pos_upper p d U) as A.
  destruct (Z.eq_dec (Zpos (digits2_pos p)) d) as [ | N]; [assumption | exfalso].
  assert (2 ^ Zpos (digits2_pos p) <= 2 ^ (d - 1)).
  { apply Z.pow_le_mono_r; lia. }
  lia.
Qed.

(** Shifting a positive number left by a positive count. *)
Lemma iter_xO_value (p d : positive) :
  Zpos (Pos.iter xO p d) = Zpos p * 2 ^ Zpos d.
Proof.
  induction d as [ | d IH] using Pos.peano_ind.
  - cbn. lia.
  - rewrite Pos.iter_succ, Pos2Z.inj_xO, IH, Pos2Z.inj_succ.
    rewrite Z.pow_succ_r by lia. ring.
Qed.

(** One step of the right shift, on a non-negative mantissa. *)
Lemma shr_1_fields (m : Z) (r s : bool) :
  0 <= m ->
  shr_1 {| shr_m := m; shr_r := r; shr_s := s |}
  = {| shr_m := m / 2; shr_r := Z.odd m; shr_s := r || s |}.
Proof.
  intros H. destruct m as [ | p | p]; [reflexivity | | lia].
  destruct p as [p | p | ]; cbn [shr_1 Z.odd].
  - f_equal. rewrite Pos2Z.inj_xI.
    apply (Z.div_unique_pos _ _ _ 1); lia.
  - f_equal. rewrite Pos2Z.inj_xO.
    apply (Z.div_unique_pos _ _ _ 0); lia.
  - reflexivity.
Qed.

Lemma shifted_start (M : Z) :
  shifted M 0 {| shr_m := M; shr_r := false; shr_s := false |}.
Proof.
  split; cbn [shr_m shr_r shr_s].
  - rewrite Z.pow_0_r, Z.div_1_r. reflexivity.
  - intros _. split; reflexivity.
Qed.

Lemma shifted_step (M k : Z) (mrs : shr_record) :
  0 <= M -> 0 <= k -> shifted M k mrs -> shifted M (k + 1) (shr_1 mrs).
Proof.
  intros HM Hk [Hm Hrs]. destruct mrs as [m r s]. cbn [shr_m shr_r shr_s] in *.
  assert (P : 0 < 2 ^ k) by pow2_pos.
  assert (Nm : 0 <= m) by (subst m; apply Z.div_pos; lia).
  rewrite shr_1_fields by exact Nm.
  assert (E : 2 ^ (k + 1) = 2 ^ k * 2) by (rewrite Z.pow_add_r by lia; reflexivity).
  split; cbn [shr_m shr_r shr_s].
  - rewrite Hm, E, Z.div_div by lia. reflexivity.
  - intros Z0.
    assert (D : M mod 2 ^ k = 0).
    { rewrite E in Z0. rewrite Z.rem_mul_r in Z0 by lia.
      pose proof (Z.mod_pos_bound M (2 ^ k) P).
      pose proof (Z.mod_pos_bound (M / 2 ^ k) 2 ltac:(lia)). nia. }
    destruct (Hrs D) as [-> ->]. split; [ | reflexivity].
    rewrite E in Z0. rewrite Z.rem_mul_r in Z0 by lia.
    rewrite D in Z0.
    assert (Ev : (M / 2 ^ k) mod 2 = 0) by nia.
    rewrite Hm. rewrite <- Z.negb_even, Bool.negb_false_iff.
    apply Z.even_spec. exists (M / 2 ^ k / 2).
    rewrite (Z.div_mod (M / 2 ^ k) 2) at 1 by lia. lia.
Qed.

Lemma shifted_iter (M : Z) (p : positive) :
  0 <= M ->
  forall k mrs, 0 <= k -> shifted M k mrs ->
                shifted M (k + Zpos p) (iter_pos shr_1 p mrs).
Proof.
  intros HM. induction p as [p IH | p IH | ]; intros k mrs Hk S; cbn [iter_pos].
  - replace (k + Zpos p~1) with (((k + 1) + Zpos p) + Zpos p) by lia.
    apply IH; [lia | ]. apply IH; [lia | ]. apply shifted_step; assumption.
  - replace (k + Zpos p~0) with ((k + Zpos p) + Zpos p) by lia.
    apply IH; [lia | ]. apply IH; assumption.
  - apply shifted_step; assumption.
Qed.

(** The right shift of an exact mantissa by [n] (no shift when [n] is not
    positive). *)
Lemma shr_fields (M e n : Z) :
  0 <= M ->
  exists mrs,
    shr {| shr_m := M; shr_r := false; shr_s := false |} e n = (mrs, e + Z.max 0 n)
    /\ shifted M (Z.max 0 n) mrs.
Proof.
  intros HM. destruct n as [ | p | p]; cbn [shr].
  - eexists. split; [rewrite Z.add_0_r; reflexivity | apply shifted_start].
  - eexists. split; [replace (Z.max 0 (Zpos p)) with (Zpos p) by lia; reflexivity | ].
    replace (Z.max 0 (Zpos p)) with (0 + Zpos p) by lia.
    apply shifted_iter; [exact HM | lia | apply shifted_start].
  - eexists. split.
    + replace (Z.max 0 (Zneg p)) with 0 by lia. rewrite Z.add_0_r. reflexivity.
    + replace (Z.max 0 (Zneg p)) with 0 by lia. apply shifted_start.
Qed.

(** Rounding to nearest even moves the mantissa up by at most one, and
    not at all when nothing was shifted out. *)
Lemma round_nearest_even_cases (mrs : shr_record) :
  let m1 := round_nearest_even (shr_m mrs) (loc_of_shr_record mrs) in
  (m1 = shr_m mrs \/ m1 = shr_m mrs + 1) /\
  (shr_r mrs = false /\ shr_s mrs = false -> m1 = shr_m mrs).
Proof.
  destruct mrs as [m r s]. cbn [shr_m shr_r shr_s loc_of_shr_record].
  destruct r, s; cbn [round_nearest_even]; split;
    try (intros [A B]; discriminate); try (intros _; reflexivity); auto.
  destruct (Z.even m); auto.
Qed.

(** Shifts as scalings by a power of two, rounded down. *)
Lemma shiftl_neg m e : e < 0 -> Z.shiftl m e = m / 2 ^ (- e).
Proof.
  intros N. apply Z.shiftl_div_pow2. lia.
Qed.

Lemma shiftl_mono m m' e : 0 <= m <= m' -> Z.shiftl m e <= Z.shiftl m' e.
Proof.
  intros H. destruct (Z.le_gt_cases 0 e) as [P | N].
  - rewrite !Z.shiftl_mul_pow2 by lia.
    assert (0 < 2 ^ e) by pow2_pos. nia.
  - rewrite !shiftl_neg by lia.
    apply Z.div_le_mono; [apply Z.pow_pos_nonneg; lia | lia].
Qed.

Lemma shiftl_drop m e j :
  0 <= m -> 0 <= j -> Z.shiftl (m / 2 ^ j) (e + j) <= Z.shiftl m e.
Proof.
  intros Hm Hj.
  assert (Pj : 0 < 2 ^ j) by pow2_pos.
  assert (Q : 0 <= m / 2 ^ j) by (apply Z.div_pos; lia).
  assert (D : m / 2 ^ j * 2 ^ j <= m).
  { rewrite Z.mul_comm. apply Z.mul_div_le. lia. }
  destruct (Z.le_gt_cases 0 e) as [P | N].
  - rewrite !Z.shiftl_mul_pow2 by lia.
    rewrite Z.pow_add_r by lia.
    assert (0 < 2 ^ e) by pow2_pos. nia.
  - rewrite (shiftl_neg m e) by lia.
    destruct (Z.le_gt_cases 0 (e + j)) as [P' | N'].
    + rewrite Z.shiftl_mul_pow2 by lia.
      apply Z.div_le_lower_bound; [pow2_pos | ].
      assert (F : 2 ^ j = 2 ^ (e + j) * 2 ^ (- e)).
      { rewrite <- Z.pow_add_r by lia. f_equal. lia. }
      rewrite F in D at 2. lia.
    + rewrite shiftl_neg by lia.
      rewrite Z.div_div by (try apply Z.pow_pos_nonneg; lia).
      rewrite <- Z.pow_add_r by lia.
      replace (j + - (e + j)) with (- e) by lia. lia.
Qed.

Lemma round_aux_to_uint64_upper (M : positive) (E : Z) :
  let n := Z.max 0 (fexp 24 128 (Zpos (digits2_pos M) + E) - E) in
  let up := if Zpos M mod 2 ^ n =? 0 then Zpos M / 2 ^ n else Zpos M / 2 ^ n + 1 in
  0 <= Float32.to_uint64 (binary_round_aux 24 128 false (Zpos M) E loc_Exact)
    <= Z.shiftl up (E + n).
Proof.
  intros n up.
  unfold binary_round_aux, shr_fexp. cbn [Zdigits2 shr_record_of_loc].
  destruct (shr_fields (Zpos M) E (fexp 24 128 (Zpos (digits2_pos M) + E) - E))
    as (mrs & Hs & Sh); [lia | ].
  fold n in Hs, Sh. rewrite Hs.
  pose proof (round_nearest_even_cases mrs) as [RC RE]. cbv zeta in RC, RE.
  set (m1 := round_nearest_even (shr_m mrs) (loc_of_shr_record mrs)) in *.
  destruct Sh as [Sm Srs].
  assert (Pn : 0 < 2 ^ n) by pow2_pos.
  assert (M0 : 0 <= shr_m mrs) by (rewrite Sm; apply Z.div_pos; lia).
  assert (N1 : 0 <= m1) by lia.
  assert (U1 : m1 <= up).
  { unfold up. destruct (Z.eqb_spec (Zpos M mod 2 ^ n) 0) as [X | X].
    - rewrite RE by (apply Srs; exact X). lia.
    - lia. }
  destruct (shr_fields m1 (E + n) (fexp 24 128 (Zdigits2 m1 + (E + n)) - (E + n)))
    as (mrs2 & Hs2 & [Sm2 _]); [lia | ].
  rewrite Hs2.
  set (j := Z.max 0 (fexp 24 128 (Zdigits2 m1 + (E + n)) - (E + n))) in *.
  assert (B : Z.shiftl (shr_m mrs2) (E + n + j) <= Z.shiftl up (E + n)).
  { rewrite Sm2. etransitivity; [apply shiftl_drop; lia | apply shiftl_mono; lia]. }
  assert (U0 : 0 <= Z.shiftl up (E + n)) by (apply Z.shiftl_nonneg; lia).
  destruct (shr_m mrs2) as [ | m | m] eqn:Em; cbn [Float32.to_uint64].
  - lia.
  - destruct (E + n + j <=? 128 - 24); cbn [Float32.to_uint64]; [ | lia].
    destruct (Z.ltb_spec (Z.shiftl (Zpos m) (E + n + j)) (2 ^ 64)); [ | lia].
    split; [apply Z.shiftl_nonneg; lia | lia].
  - lia.
Qed.

Lemma fexp32 (x : Z) : fexp 24 128 x = Z.max (x - 24) (-149).
Proof. reflexivity. Qed.

Lemma shl_align_fields (mx : positive) (ex ex' : Z) :
  ex' <= ex ->
  exists mz, shl_align mx ex ex' = (mz, ex') /\ Zpos mz = Zpos mx * 2 ^ (ex - ex').
Proof.
  intros L. unfold shl_align.
  destruct (ex' - ex) as [ | k | k] eqn:D.
  - assert (ex' = ex) by lia. subst ex'. exists mx. split; [reflexivity | ].
    rewrite Z.sub_diag, Z.pow_0_r. lia.
  - lia.
  - exists (Pos.iter xO mx k). split; [reflexivity | ].
    rewrite iter_xO_value. f_equal. f_equal. lia.
Qed.

(** A product that needs no rounding: the mantissa [M] is [m'] shifted
    left by exactly the number of bits the format drops. *)
Lemma round_aux_exact (M m' : positive) (E : Z) :
  let n := Z.max 0 (fexp 24 128 (Zpos (digits2_pos M) + E) - E) in
  Zpos M = Zpos m' * 2 ^ n ->
  fexp 24 128 (Zpos (digits2_pos m') + (E + n)) <= E + n ->
  E + n <= 104 ->
  binary_round_aux 24 128 false (Zpos M) E loc_Exact = S754_finite false m' (E + n).
Proof.
  intros n HM Hc He.
  assert (Pn : 0 < 2 ^ n) by pow2_pos.
  unfold binary_round_aux, shr_fexp. cbn [Zdigits2 shr_record_of_loc].
  destruct (shr_fields (Zpos M) E (fexp 24 128 (Zpos (digits2_pos M) + E) - E))
    as (mrs & Hs & [Sm Srs]); [lia | ].
  fold n in Hs, Sm, Srs. rewrite Hs.
  assert (X : Zpos M mod 2 ^ n = 0) by (rewrite HM; apply Z.mod_mul; lia).
  destruct (Srs X) as [Sr Ss].
  assert (Q : shr_m mrs = Zpos m') by (rewrite Sm, HM; apply Z.div_mul; lia).
  destruct mrs as [m r s]. cbn [shr_m shr_r shr_s] in *.
  clear Sm Srs Hs. subst m r s.
  cbn [loc_of_shr_record round_nearest_even Zdigits2].
  destruct (shr_fields (Zpos m') (E + n)
              (fexp 24 128 (Zpos (digits2_pos m') + (E + n)) - (E + n)))
    as (mrs2 & Hs2 & [Sm2 _]); [lia | ].
  rewrite Hs2.
  replace (Z.max 0 (fexp 24 128 (Zpos (digits2_pos m') + (E + n)) - (E + n)))
    with 0 in * by lia.
  rewrite Z.pow_0_r, Z.div_1_r in Sm2. rewrite Sm2, Z.add_0_r.
  destruct (Z.leb_spec (E + n) (128 - 24)); [reflexivity | lia].
Qed.

(** An integer below 2^24 converts to [float] without rounding: the
    result is a 24-bit mantissa scaled down by the shift that normalised
    it. *)
Lemma of_int64_exact (d : Z) :
  0 < d < 2 ^ 24 ->
  exists mz ez,
    Float32.of_int64 d = S754_finite false mz ez /\
    Zpos (digits2_pos mz) = 24 /\
    -23 <= ez <= 0 /\
    Zpos mz = d * 2 ^ (- ez).
Proof.
  intros [P U]. destruct d as [ | p | p]; try lia.
  pose proof (digits2_pos_bounds p) as [DL DU].
  pose proof (digits2_pos_upper p 24 U) as D24.
  assert (D1 : 1 <= Zpos (digits2_pos p)) by lia.
  set (dp := Zpos (digits2_pos p)) in *.
  unfold Float32.of_int64, binary_normalize, binary_round.
  change Float32.prec with 24. change Float32.emax with 128.
  rewrite fexp32. fold dp.
  replace (Z.max (dp + 0 - 24) (-149)) with (dp - 24) by lia.
  destruct (shl_align_fields p 0 (dp - 24)) as (mz & Hal & Hmz); [lia | ].
  rewrite Hal.
  assert (Dz : Zpos (digits2_pos mz) = 24).
  { apply digits2_pos_unique. rewrite Hmz.
    replace (0 - (dp - 24)) with (24 - dp) by lia.
    assert (F : 2 ^ (24 - 1) = 2 ^ (dp - 1) * 2 ^ (24 - dp)).
    { rewrite <- Z.pow_add_r by lia. f_equal. lia. }
    assert (G : 2 ^ 24 = 2 ^ dp * 2 ^ (24 - dp)).
    { rewrite <- Z.pow_add_r by lia. f_equal. lia. }
    assert (0 < 2 ^ (24 - dp)) by pow2_pos.
    rewrite F, G. split; nia. }
  exists mz, (dp - 24). split.
  - pose proof (round_aux_exact mz mz (dp - 24)) as RA. cbv zeta in RA.
    rewrite Dz, fexp32 in RA.
    replace (Z.max 0 (Z.max (24 + (dp - 24) - 24) (-149) - (dp - 24))) with 0 in RA
      by lia.
    rewrite Z.add_0_r in RA. apply RA.
    + rewrite Z.pow_0_r. lia.
    + rewrite fexp32. lia.
    + lia.
  - split; [exact Dz | ]. split; [lia | ].
    replace (- (dp - 24)) with (0 - (dp - 24)) by lia. exact Hmz.
Qed.

(** A factor in the unit interval: zero, or a positive finite number
    [m * 2^e] with [m <= 2^(-e)]. *)
Lemma unit_interval_cases (alpha : spec_float) :
  Float32.valid alpha -> Float32.in_unit_interval alpha ->
  (exists s, alpha = S754_zero s) \/
  (exists m e, alpha = S754_finite false m e /\ e <= -23 /\ Zpos m <= 2 ^ (- e)).
Proof.
  intros V [L U]. destruct alpha as [s | s | | s m e].
  - left. exists s. reflexivity.
  - destruct s; cbn in L, U; discriminate.
  - cbn in L. discriminate.
  - right. destruct s; [cbn in L; discriminate | ].
    exists m, e. split; [reflexivity | ].
    unfold Float32.valid, valid_binary, bounded, canonical_mantissa in V.
    change Float32.prec with 24 in V. change Float32.emax with 128 in V.
    apply andb_true_iff in V. destruct V as [C _].
    apply Z.eqb_eq in C. rewrite fexp32 in C.
    pose proof (digits2_pos_bounds m) as [_ DU].
    change Float32.one with (S754_finite false 8388608 (-23)) in U.
    unfold SFleb, SFcompare in U.
    destruct (Z.compare_spec e (-23)) as [E | E | E].
    + subst e. split; [lia | ].
      change (Pos.compare_cont Eq m 8388608) with (Pos.compare m 8388608) in U.
      change (2 ^ (- -23)) with 8388608.
      destruct (Pos.compare_spec m 8388608) as [Cm | Cm | Cm];
        [lia | lia | discriminate].
    + split; [lia | ].
      assert (D : Zpos (digits2_pos m) <= 24) by lia.
      assert (2 ^ Zpos (digits2_pos m) <= 2 ^ 24) by (apply Z.pow_le_mono_r; lia).
      assert (2 ^ 24 <= 2 ^ (- e)) by (apply Z.pow_le_mono_r; lia).
      lia.
    + discriminate.
Qed.

(** The slew step never exceeds a delta below 2^24 when the factor is in
    the unit interval. *)
Lemma slew_step_at_most_delta (d : Z) (alpha : spec_float) :
  0 < d < 2 ^ 24 ->
  Float32.valid alpha -> Float32.in_unit_interval alpha ->
  0 <= slew_step d alpha <= d.
Proof.
  intros Hd V I.
  destruct (of_int64_exact d Hd) as (mz & ez & Hof & Dz & Hez & Hmz).
  unfold slew_step. rewrite Hof.
  destruct (unit_interval_cases alpha V I) as [[s ->] | (ma & ea & -> & Hea & Hma)].
  - cbn. lia.
  - unfold Float32.mul, SFmul. cbn [xorb].
    change Float32.prec with 24. change Float32.emax with 128.
    pose proof (round_aux_to_uint64_upper (mz * ma) (ez + ea)) as [L U].
    cbv zeta in L, U. split; [exact L | ].
    eapply Z.le_trans; [exact U | ]. clear L U.
    rewrite fexp32.
    set (M := Zpos (mz * ma)).
    set (E := ez + ea).
    set (n := Z.max 0 (Z.max (Zpos (digits2_pos (mz * ma)) + E - 24) (-149) - E)).
    pose proof (digits2_pos_bounds mz) as [_ Uz]. rewrite Dz in Uz.
    assert (Pa : 0 < 2 ^ (- ea)) by pow2_pos.
    assert (HM : M = Zpos mz * Zpos ma) by (unfold M; apply Pos2Z.inj_mul).
    assert (MR : M <= Zpos mz * 2 ^ (- ea)) by (rewrite HM; nia).
    assert (Dn : Zpos (digits2_pos (mz * ma)) <= 24 - ea).
    { apply digits2_pos_upper. fold M.
      replace (24 - ea) with (24 + - ea) by lia.
      rewrite Z.pow_add_r by lia. nia. }
    assert (Hn : 0 <= n <= - ea) by (unfold n, E; lia).
    assert (Pn : 0 < 2 ^ n) by pow2_pos.
    set (K := 2 ^ (- ea - n)).
    assert (PK : 0 < K) by pow2_pos.
    assert (HK : 2 ^ (- ea) = K * 2 ^ n).
    { unfold K. rewrite <- Z.pow_add_r by lia. f_equal. lia. }
    assert (Q : M / 2 ^ n <= Zpos mz * K).
    { apply Z.div_le_upper_bound; [exact Pn | ]. rewrite HK in MR. lia. }
    assert (Up : (if M mod 2 ^ n =? 0 then M / 2 ^ n else M / 2 ^ n + 1)
                 <= Zpos mz * K).
    { destruct (Z.eqb_spec (M mod 2 ^ n) 0) as [X | X]; [exact Q | ].
      assert (NE : M <> Zpos mz * K * 2 ^ n).
      { intros EQ. apply X. rewrite EQ. apply Z.mod_mul. lia. }
      assert (LT : M < 2 ^ n * (Zpos mz * K)) by (rewrite HK in MR; lia).
      apply Z.div_lt_upper_bound in LT; [lia | exact Pn]. }
    assert (N0 : 0 <= M / 2 ^ n) by (apply Z.div_pos; [unfold M | ]; lia).
    eapply Z.le_trans.
    { apply shiftl_mono. split; [ | exact Up].
      destruct (M mod 2 ^ n =? 0); lia. }
    assert (En : E + n <= 0) by (unfold E; lia).
    rewrite Z.shiftl_div_pow2 by exact En.
    assert (F : 2 ^ (- (E + n)) = 2 ^ (- ez) * K).
    { unfold K, E. rewrite <- Z.pow_add_r by lia. f_equal. lia. }
    rewrite F, Hmz.
    replace (d * 2 ^ (- ez) * K) with (d * (2 ^ (- ez) * K)) by ring.
    rewrite Z.div_mul; [lia | ].
    assert (0 < 2 ^ (- ez)) by pow2_pos. nia.
Qed.

(** The powers of two 2^(-k) as [float] constants. *)
Lemma of_scaled_pow2 (k : Z) :
  0 <= k <= 126 ->
  Float32.of_scaled 1 (- k) = S754_finite false 8388608 (-23 - k).
Proof.
  intros Hk. unfold Float32.of_scaled, binary_normalize, binary_round.
  change Float32.prec with 24. change Float32.emax with 128.
  cbn [digits2_pos]. rewrite fexp32.
  replace (Z.max (1 + - k - 24) (-149)) with (-23 - k) by lia.
  destruct (shl_align_fields 1 (- k) (-23 - k)) as (mz & Hal & Hmz); [lia | ].
  rewrite Hal.
  replace (- k - (-23 - k)) with 23 in Hmz by lia.
  assert (mz = 8388608%positive) by (apply Pos2Z.inj; rewrite Hmz; reflexivity).
  subst mz.
  pose proof (round_aux_exact 8388608 8388608 (-23 - k)) as RA. cbv zeta in RA.
  cbn [digits2_pos Pos.succ] in RA. rewrite fexp32 in RA.
  replace (Z.max 0 (Z.max (24 + (-23 - k) - 24) (-149) - (-23 - k))) with 0 in RA
    by lia.
  rewrite Z.add_0_r in RA. apply RA.
  - reflexivity.
  - rewrite fexp32. lia.
  - lia.
Qed.

(** With a power of two as factor and a delta below 2^24 the slew step is
    the exact product rounded down. *)
Lemma slew_step_pow2 (d k : Z) :
  0 < d < 2 ^ 24 -> 0 <= k <= 126 ->
  slew_step d (Float32.of_scaled 1 (- k)) = d / 2 ^ k /\
  Float32.floor_mul d (Float32.of_scaled 1 (- k)) = d / 2 ^ k.
Proof.
  intros Hd Hk. rewrite of_scaled_pow2 by exact Hk.
  assert (Pk : 0 < 2 ^ k) by pow2_pos.
  split.
  - destruct (of_int64_exact d Hd) as (mz & ez & Hof & Dz & Hez & Hmz).
    unfold slew_step. rewrite Hof.
    unfold Float32.mul, SFmul. cbn [xorb].
    change Float32.prec with 24. change Float32.emax with 128.
    pose proof (digits2_pos_bounds mz) as [Lz Uz]. rewrite Dz in Lz, Uz.
    assert (D47 : Zpos (digits2_pos (mz * 8388608)) = 47).
    { apply digits2_pos_unique. rewrite Pos2Z.inj_mul.
      change (Zpos 8388608) with (2 ^ 23).
      change (2 ^ (47 - 1)) with (2 ^ (24 - 1) * 2 ^ 23).
      change (2 ^ 47) with (2 ^ 24 * 2 ^ 23). lia. }
    pose proof (round_aux_exact (mz * 8388608) mz (ez + (-23 - k))) as RA.
    cbv zeta in RA. rewrite D47, Dz, !fexp32 in RA.
    replace (Z.max 0 (Z.max (47 + (ez + (-23 - k)) - 24) (-149) - (ez + (-23 - k))))
      with 23 in RA by lia.
    replace (ez + (-23 - k) + 23) with (ez - k) in RA by lia.
    rewrite RA.
    + cbn [Float32.to_uint64].
      assert (Ek : ez - k <= 0) by lia.
      assert (V : Z.shiftl (Zpos mz) (ez - k) = d / 2 ^ k).
      { rewrite Z.shiftl_div_pow2 by exact Ek. rewrite Hmz.
        replace (- (ez - k)) with (- ez + k) by lia.
        rewrite Z.pow_add_r by lia.
        assert (0 < 2 ^ (- ez)) by pow2_pos.
        rewrite (Z.mul_comm d), Z.div_mul_cancel_l by lia. reflexivity. }
      rewrite V.
      assert (d / 2 ^ k <= d).
      { apply Z.div_le_upper_bound; [exact Pk | nia]. }
      destruct (Z.ltb_spec (d / 2 ^ k) (2 ^ 64)); [reflexivity | lia].
    + rewrite Pos2Z.inj_mul. reflexivity.
    + lia.
    + lia.
  - cbn [Float32.floor_mul].
    assert (Ek : -23 - k <= 0) by lia.
    rewrite Z.shiftl_div_pow2 by exact Ek.
    replace (- (-23 - k)) with (23 + k) by lia.
    rewrite Z.pow_add_r by lia.
    change (Zpos 8388608) with (2 ^ 23).
    rewrite <- Z.div_div by lia. rewrite Z.div_mul by lia. reflexivity.
Qed.

(** The value of a rounded product. *)
Lemma div_pow2_upper (M D n : Z) :
  0 <= M < 2 ^ D -> 0 <= n <= D -> M / 2 ^ n < 2 ^ (D - n).
Proof.
  intros HM Hn. apply Z.div_lt_upper_bound; [pow2_pos | ].
  rewrite <- Z.pow_add_r by lia. replace (n + (D - n)) with D by lia. lia.
Qed.

Lemma div_pow2_lower (M D n : Z) :
  2 ^ (D - 1) <= M -> 0 <= n <= D - 1 -> 2 ^ (D - 1 - n) <= M / 2 ^ n.
Proof.
  intros HM Hn. apply Z.div_le_lower_bound; [pow2_pos | ].
  rewrite <- Z.pow_add_r by lia. replace (n + (D - 1 - n)) with (D - 1) by lia. lia.
Qed.

Lemma Zdigits2_upper (m d : Z) :
  0 <= m < 2 ^ d -> 0 <= d -> 0 <= Zdigits2 m <= d.
Proof.
  intros [L U] Hd. destruct m as [ | p | p]; cbn [Zdigits2]; [lia | | lia].
  split; [lia | apply digits2_pos_upper; exact U].
Qed.

Lemma shiftl_exact_drop (m e j : Z) :
  0 <= m -> 0 <= j -> m mod 2 ^ j = 0 ->
  Z.shiftl (m / 2 ^ j) (e + j) = Z.shiftl m e.
Proof.
  intros Hm Hj X.
  assert (Pj : 0 < 2 ^ j) by pow2_pos.
  assert (Q : m = m / 2 ^ j * 2 ^ j).
  { rewrite (Z.div_mod m (2 ^ j)) at 1 by lia. rewrite X. lia. }
  rewrite Q at 2.
  rewrite <- Z.shiftl_mul_pow2 by lia.
  rewrite Z.shiftl_shiftl by lia. f_equal. lia.
Qed.

Lemma round_aux_value (M : positive) (E : Z) :
  let n := Z.max 0 (fexp 24 128 (Zpos (digits2_pos M) + E) - E) in
  E + n < 104 ->
  exists m1,
    (m1 = Zpos M / 2 ^ n \/ m1 = Zpos M / 2 ^ n + 1) /\
    (Zpos M mod 2 ^ n = 0 -> m1 = Zpos M / 2 ^ n) /\
    Float32.to_uint64 (binary_round_aux 24 128 false (Zpos M) E loc_Exact)
    = (if Z.shiftl m1 (E + n) <? 2 ^ 64 then Z.shiftl m1 (E + n) else 0).
Proof.
  intros n He.
  pose proof (digits2_pos_bounds M) as [DL DU].
  set (D := Zpos (digits2_pos M)) in *.
  assert (D1 : 1 <= D) by (unfold D; lia).
  unfold binary_round_aux, shr_fexp. cbn [Zdigits2 shr_record_of_loc].
  fold D. fold D in n.
  destruct (shr_fields (Zpos M) E (fexp 24 128 (D + E) - E))
    as (mrs & Hs & [Sm Srs]); [lia | ].
  fold n in Hs, Sm, Srs. rewrite Hs.
  pose proof (round_nearest_even_cases mrs) as [RC RE]. cbv zeta in RC, RE.
  remember (round_nearest_even (shr_m mrs) (loc_of_shr_record mrs)) as m1 eqn:Hm1.
  clear Hm1.
  assert (Pn : 0 < 2 ^ n) by pow2_pos.
  assert (M0 : 0 <= Zpos M / 2 ^ n) by (apply Z.div_pos; lia).
  rewrite Sm in RC, RE.
  assert (N1 : 0 <= m1) by lia.
  assert (RX : Zpos M mod 2 ^ n = 0 -> m1 = Zpos M / 2 ^ n)
    by (intros X; apply RE, Srs, X).
  exists m1. split; [exact RC | ]. split; [exact RX | ].
  destruct (shr_fields m1 (E + n) (fexp 24 128 (Zdigits2 m1 + (E + n)) - (E + n)))
    as (mrs2 & Hs2 & [Sm2 _]); [lia | ].
  rewrite Hs2.
  set (j := Z.max 0 (fexp 24 128 (Zdigits2 m1 + (E + n)) - (E + n))) in *.
  assert (J : 0 <= j <= 1 /\ m1 mod 2 ^ j = 0).
  { unfold j. rewrite fexp32.
    destruct (Z.eq_dec n 0) as [N0 | NN].
    - (* nothing shifted out *)
      assert (m1 = Zpos M).
      { rewrite RX by (rewrite N0, Z.pow_0_r; apply Z.mod_1_r).
        rewrite N0, Z.pow_0_r, Z.div_1_r. reflexivity. }
      subst m1. cbn [Zdigits2]. fold D.
      assert (N0' : Z.max (D + E - 24) (-149) <= E).
      { unfold n in N0. rewrite fexp32 in N0. lia. }
      replace (Z.max 0 (Z.max (D + (E + n) - 24) (-149) - (E + n))) with 0
        by (rewrite N0; lia).
      split; [lia | ]. rewrite Z.pow_0_r. apply Z.mod_1_r.
    - assert (En : E + n = Z.max (D + E - 24) (-149)).
      { clear - NN. unfold n in *. rewrite fexp32 in *. lia. }
      destruct (Z.le_gt_cases (-149) (D + E - 24)) as [Nor | Sub].
      + (* normal range *)
        assert (Hn : n = D - 24) by lia.
        assert (L23 : 2 ^ 23 <= Zpos M / 2 ^ n).
        { replace 23 with (D - 1 - n) by lia. apply div_pow2_lower; lia. }
        assert (U24 : Zpos M / 2 ^ n < 2 ^ 24).
        { replace 24 with (D - n) by lia. apply div_pow2_upper; lia. }
        destruct (Z.eq_dec m1 (2 ^ 24)) as [T | T].
        * rewrite T. change (Zdigits2 (2 ^ 24)) with 25.
          replace (Z.max 0 (Z.max (25 + (E + n) - 24) (-149) - (E + n))) with 1 by lia.
          split; [lia | reflexivity].
        * assert (B : 2 ^ (24 - 1) <= m1 < 2 ^ 24) by (change (24 - 1) with 23; lia).
          destruct m1 as [ | q | q]; try lia.
          cbn [Zdigits2]. rewrite (digits2_pos_unique q 24 B).
          replace (Z.max 0 (Z.max (24 + (E + n) - 24) (-149) - (E + n))) with 0 by lia.
          split; [lia | ]. rewrite Z.pow_0_r. apply Z.mod_1_r.
      + (* subnormal range *)
        assert (Hn : n = -149 - E) by lia.
        assert (U23 : Zpos M / 2 ^ n < 2 ^ 23).
        { destruct (Z.le_gt_cases n D) as [A | A].
          - assert (Zpos M / 2 ^ n < 2 ^ (D - n)) by (apply div_pow2_upper; lia).
            assert (2 ^ (D - n) <= 2 ^ 23) by (apply Z.pow_le_mono_r; lia).
            lia.
          - assert (2 ^ D <= 2 ^ n) by (apply Z.pow_le_mono_r; lia).
            rewrite Z.div_small by lia. lia. }
        assert (B : 0 <= m1 < 2 ^ 24) by lia.
        pose proof (Zdigits2_upper m1 24 B ltac:(lia)) as Dg.
        replace (Z.max 0 (Z.max (Zdigits2 m1 + (E + n) - 24) (-149) - (E + n)))
          with 0 by lia.
        split; [lia | ]. rewrite Z.pow_0_r. apply Z.mod_1_r. }
  destruct J as [Hj Xj].
  assert (V : Z.shiftl (shr_m mrs2) (E + n + j) = Z.shiftl m1 (E + n)).
  { rewrite Sm2. apply shiftl_exact_drop; lia. }
  assert (N2 : 0 <= shr_m mrs2).
  { rewrite Sm2. apply Z.div_pos; [lia | apply Z.pow_pos_nonneg; lia]. }
  destruct (shr_m mrs2) as [ | q | q] eqn:Em.
  - cbn [Float32.to_uint64]. rewrite Z.shiftl_0_l in V. rewrite <- V. reflexivity.
  - destruct (Z.leb_spec (E + n + j) (128 - 24)) as [_ | B]; [ | lia].
    cbn [Float32.to_uint64]. rewrite V. reflexivity.
  - lia.
Qed.

(** For a delta below 2^24 and a factor in the unit interval the slew
    step is the exact product rounded down, or one more. *)
Lemma slew_step_near_floor (d : Z) (alpha : spec_float) :
  0 < d < 2 ^ 24 ->
  Float32.valid alpha -> Float32.in_unit_interval alpha ->
  Float32.floor_mul d alpha <= slew_step d alpha <= Float32.floor_mul d alpha + 1.
Proof.
  intros Hd V I.
  destruct (of_int64_exact d Hd) as (mz & ez & Hof & Dz & Hez & Hmz).
  unfold slew_step. rewrite Hof.
  destruct (unit_interval_cases alpha V I) as [[s ->] | (ma & ea & -> & Hea & Hma)].
  - cbn. lia.
  - unfold Float32.mul, SFmul. cbn [xorb Float32.floor_mul].
    change Float32.prec with 24. change Float32.emax with 128.
    pose proof (round_aux_value (mz * ma) (ez + ea)) as RV. cbv zeta in RV.
    rewrite fexp32 in RV.
    set (M := Zpos (mz * ma)) in *.
    set (E := ez + ea) in *.
    set (n := Z.max 0 (Z.max (Zpos (digits2_pos (mz * ma)) + E - 24) (-149) - E)) in *.
    pose proof (digits2_pos_bounds mz) as [_ Uz]. rewrite Dz in Uz.
    assert (Pa : 0 < 2 ^ (- ea)) by pow2_pos.
    assert (Pz : 0 < 2 ^ (- ez)) by pow2_pos.
    assert (HM : M = Zpos mz * Zpos ma) by (unfold M; apply Pos2Z.inj_mul).
    assert (Dn : Zpos (digits2_pos (mz * ma)) <= 24 - ea).
    { apply digits2_pos_upper. fold M.
      replace (24 - ea) with (24 + - ea) by lia.
      rewrite Z.pow_add_r by lia. nia. }
    assert (Hn : 0 <= n <= - ea) by (unfold n, E; lia).
    assert (En : E + n <= 0) by (unfold E; lia).
    destruct RV as (m1 & RC & _ & RV); [lia | ].
    assert (Pn : 0 < 2 ^ n) by pow2_pos.
    assert (M0 : 0 <= M / 2 ^ n) by (apply Z.div_pos; [unfold M | ]; lia).
    assert (Mn : M / 2 ^ n <= M).
    { apply Z.div_le_upper_bound; [exact Pn | ]. unfold M. nia. }
    assert (M48 : M < 2 ^ 48).
    { rewrite HM.
      assert (VC : Zpos ma < 2 ^ 24).
      { unfold Float32.valid, valid_binary, bounded, canonical_mantissa in V.
        change Float32.prec with 24 in V. change Float32.emax with 128 in V.
        apply andb_true_iff in V. destruct V as [C _].
        apply Z.eqb_eq in C. rewrite fexp32 in C.
        pose proof (digits2_pos_bounds ma) as [_ DUa].
        assert (2 ^ Zpos (digits2_pos ma) <= 2 ^ 24) by (apply Z.pow_le_mono_r; lia).
        lia. }
      change (2 ^ 48) with (2 ^ 24 * 2 ^ 24). nia. }
    set (a := - (E + n)).
    assert (Pw : 0 < 2 ^ a) by (apply Z.pow_pos_nonneg; unfold a; lia).
    assert (T : Z.shiftl m1 (E + n) = m1 / 2 ^ a).
    { rewrite Z.shiftl_div_pow2 by exact En. reflexivity. }
    assert (F : Z.shiftl (d * Zpos ma) ea = M / 2 ^ n / 2 ^ a).
    { rewrite Z.shiftl_div_pow2 by lia.
      rewrite Z.div_div by lia. rewrite <- Z.pow_add_r by (unfold a; lia).
      replace (n + a) with (- ez + - ea) by (unfold a, E; lia).
      rewrite Z.pow_add_r by lia.
      rewrite HM, Hmz.
      replace (d * 2 ^ (- ez) * Zpos ma) with (2 ^ (- ez) * (d * Zpos ma)) by ring.
      rewrite Z.div_mul_cancel_l by lia. reflexivity. }
    rewrite RV, T, F.
    assert (Q1 : m1 / 2 ^ a <= m1).
    { apply Z.div_le_upper_bound; [exact Pw | nia]. }
    destruct (Z.ltb_spec (m1 / 2 ^ a) (2 ^ 64)) as [_ | B].
    + split.
      * apply Z.div_le_mono; [exact Pw | lia].
      * assert (m1 / 2 ^ a <= (M / 2 ^ n + 1) / 2 ^ a)
          by (apply Z.div_le_mono; [exact Pw | lia]).
        assert ((M / 2 ^ n + 1) / 2 ^ a <= M / 2 ^ n / 2 ^ a + 1).
        { replace (M / 2 ^ n / 2 ^ a + 1) with ((M / 2 ^ n + 1 * 2 ^ a) / 2 ^ a)
            by (rewrite Z.div_add by lia; reflexivity).
          apply Z.div_le_mono; [exact Pw | lia]. }
        lia.
    + exfalso. assert (2 ^ 48 < 2 ^ 64) by reflexivity. lia.
Qed.

End Float32Facts.

(** ** The slew step *)

(** The slew branch of [_adjust]: a synced clock and a positive delta
    within the threshold. *)
Lemma baseline_adjust_slew c env remoteMicros :
  0 <= remoteMicros < 2 ^ 56 ->
  _synced c = true ->
  0 < remoteMicros - meshMicros c env <= _largeStep c ->
  Baseline._adjust c env remoteMicros
  = set_offset (set_lastSync c (millis env))
      (wrap64 (_offset c
               + slew_step (remoteMicros - meshMicros c env) (_alpha c))).
Proof.
  intros R S D. unfold Baseline._adjust.
  rewrite (delta_when_ahead c env remoteMicros R) by lia.
  cbn [_synced _offset _largeStep _alpha set_lastSync].
  rewrite S. cbn [negb orb].
  unfold abs64.
  destruct (Z.ltb_spec 0 (remoteMicros - meshMicros c env)) as [_ | N]; [ | lia].
  destruct (Z.gtb_spec (remoteMicros - meshMicros c env) (_largeStep c)) as [G | _];
    [lia | ].
  destruct (Z.gtb_spec (remoteMicros - meshMicros c env) 0) as [_ | N]; [ | lia].
  reflexivity.
Qed.

Lemma forward_adjust_slew c env remoteMicros :
  0 <= remoteMicros < 2 ^ 56 ->
  _synced c = true ->
  0 < remoteMicros - meshMicros c env <= _largeStep c ->
  ForwardOnly._adjust c env remoteMicros = Baseline._adjust c env remoteMicros.
Proof.
  intros R S D. rewrite (baseline_adjust_slew c env remoteMicros R S D).
  unfold ForwardOnly._adjust.
  rewrite (delta_when_ahead c env remoteMicros R) by lia.
  cbn [_synced _offset _largeStep _alpha set_lastSync].
  rewrite S. cbn [negb orb].
  unfold abs64.
  destruct (Z.ltb_spec 0 (remoteMicros - meshMicros c env)) as [_ | N]; [ | lia].
  destruct (Z.gtb_spec (remoteMicros - meshMicros c env) (_largeStep c)) as [G | _];
    [lia | ].
  destruct (Z.gtb_spec (remoteMicros - meshMicros c env) 0) as [_ | N]; [ | lia].
  reflexivity.
Qed.

(** C7 (counterexample).  With the slew factor 0.75, a synced clock at
    mesh time 0 and a frame stamped 8388609 (a delta within the threshold
    10000000), the offset grows by 6291457, whereas
    [floor (8388609 * 0.75) = 6291456]: the single-precision product
    6291456.75 is rounded to 6291457 before the truncation. *)
Lemma slew_step_is_not_exact_floor :
  let c := set_synced (construct 1000 Float32.three_quarters 10000000 5000 10) true in
  let env := {| clock_us := 0; millis := 40; random := fun lo _ => lo |} in
  let data := data_of_packet (make_packet 8388609) in
  let c' := snd (Baseline.handleReceive c env bcastAddr data 10) in
  parse_packet data 10 = Some 8388609 /\
  _synced c = true /\
  0 < 8388609 - meshMicros c env <= _largeStep c /\
  _offset c' - _offset c = 6291457 /\
  Float32.floor_mul (8388609 - meshMicros c env) (_alpha c) = 6291456 /\
  _offset c' - _offset c
  <> Float32.floor_mul (8388609 - meshMicros c env) (_alpha c).
Proof. vm_compute. repeat split; discriminate. Qed.

(** The same effect within the default threshold: with the [float]
    nearest to 0.7 as factor and a delta of 10, the step is 7 although the
    exact product is just under 7. *)
Lemma slew_step_rounds_up_small_delta :
  let alpha := S754_finite false 11744051 (-24) in
  Float32.valid alpha /\ Float32.in_unit_interval alpha /\
  slew_step 10 alpha = 7 /\ Float32.floor_mul 10 alpha = 6.
Proof. vm_compute. repeat split. Qed.

(** C7 (as amended).  For every received clock frame with [_synced] true
    and [0 < remote - local <= _largeStep], the offset is increased (in
    64-bit arithmetic) by exactly [(uint64_t)(delta * _alpha)], the
    single-precision product of the delta and the factor, truncated.
    When the factor is a power of two [2^(-k)] (1, 0.5, the default 0.25,
    ...) and the delta is below 2^24, that step is
    [floor (delta * _alpha)]; for any factor in [0.0, 1.0] and a delta
    below 2^24 it is [floor (delta * _alpha)] or one more. *)
Theorem slew_step_applied c env (mac data : list byte) (len remote : Z) :
  parse_packet data len = Some remote ->
  _synced c = true ->
  let delta := remote - meshMicros c env in
  0 < delta <= _largeStep c ->
  let c' := snd (Baseline.handleReceive c env mac data len) in
  _offset c' = wrap64 (_offset c + slew_step delta (_alpha c)) /\
  (forall k, 0 <= k <= 126 -> _alpha c = Float32.of_scaled 1 (- k) ->
             delta < 2 ^ 24 ->
             slew_step delta (_alpha c) = Float32.floor_mul delta (_alpha c) /\
             slew_step delta (_alpha c) = delta / 2 ^ k) /\
  (Float32.valid (_alpha c) -> Float32.in_unit_interval (_alpha c) ->
   delta < 2 ^ 24 ->
   Float32.floor_mul delta (_alpha c) <= slew_step delta (_alpha c)
   <= Float32.floor_mul delta (_alpha c) + 1).
Proof.
  intros P S delta D c'.
  pose proof (parse_packet_range data len remote P) as R.
  split; [ | split].
  - unfold c'. rewrite baseline_handleReceive_parse, P. cbn [snd].
    rewrite (baseline_adjust_slew c env remote R S D). reflexivity.
  - intros k Hk Ha Hd. rewrite Ha.
    destruct (Float32Facts.slew_step_pow2 delta k) as [A B]; [lia | exact Hk | ].
    rewrite A, B. split; reflexivity.
  - intros V I Hd. apply Float32Facts.slew_step_near_floor; [lia | exact V | exact I].
Qed.

Lemma slew_step_applied_witness :
  let c := set_synced default_clock true in
  let env := {| clock_us := 1000000; millis := 40; random := fun lo _ => lo |} in
  let data := data_of_packet (make_packet 1000400) in
  parse_packet data 10 = Some 1000400 /\
  _synced c = true /\
  0 < 1000400 - meshMicros c env <= _largeStep c /\
  _offset (snd (Baseline.handleReceive c env bcastAddr data 10)) = 100.
Proof.
  intros c env data.
  assert (P : parse_packet data 10 = Some 1000400) by reflexivity.
  assert (S : _synced c = true) by reflexivity.
  assert (D : 0 < 1000400 - meshMicros c env <= _largeStep c)
    by (vm_compute; split; [reflexivity | discriminate]).
  split; [exact P | ]. split; [exact S | ]. split; [exact D | ].
  destruct (slew_step_applied c env bcastAddr data 10 1000400 P S D) as [E _].
  rewrite E. reflexivity.
Defined.

(** ** Slewing and the remote clock *)

(** C10 (counterexample).  With the slew factor 1.0, a synced clock at
    mesh time 0 and a frame stamped 16777219 (within the threshold
    20000000), the step is 16777220: the conversion of the delta to
    [float] rounds it up, and the local mesh time ends one microsecond
    past the remote stamp. *)
Lemma slew_overshoots_remote :
  let c := set_synced (construct 1000 Float32.one 20000000 5000 10) true in
  let env := {| clock_us := 0; millis := 40; random := fun lo _ => lo |} in
  let data := data_of_packet (make_packet 16777219) in
  let c' := snd (Baseline.handleReceive c env bcastAddr data 10) in
  parse_packet data 10 = Some 16777219 /\
  _synced c = true /\
  Float32.valid (_alpha c) /\ Float32.in_unit_interval (_alpha c) /\
  0 < 16777219 - meshMicros c env <= _largeStep c /\
  slew_step (16777219 - meshMicros c env) (_alpha c) = 16777220 /\
  ~ (slew_step (16777219 - meshMicros c env) (_alpha c)
     <= 16777219 - meshMicros c env) /\
  ~ (meshMicros c' env <= 16777219).
Proof. vm_compute. repeat split; try discriminate; intros H; apply H; reflexivity. Qed.

(** C10 (as amended).  For every received clock frame with [_synced]
    true, a factor in [0.0, 1.0] and [0 < remote - local <= _largeStep],
    when the delta is below 2^24 (so that its conversion to [float] is
    exact) the applied step is at most the delta, and the local mesh time
    right after the adjustment is not past the remote stamp, nor before
    its previous value. *)
Theorem slew_never_overshoots c env (mac data : list byte) (len remote : Z) :
  parse_packet data len = Some remote ->
  _synced c = true ->
  Float32.valid (_alpha c) ->
  Float32.in_unit_interval (_alpha c) ->
  let delta := remote - meshMicros c env in
  0 < delta <= _largeStep c ->
  delta < 2 ^ 24 ->
  let c' := snd (Baseline.handleReceive c env mac data len) in
  0 <= slew_step delta (_alpha c) <= delta /\
  meshMicros c' env = meshMicros c env + slew_step delta (_alpha c) /\
  meshMicros c env <= meshMicros c' env <= remote.
Proof.
  intros P S V I delta D B c'.
  pose proof (parse_packet_range data len remote P) as R.
  assert (St : 0 <= slew_step delta (_alpha c) <= delta).
  { apply Float32Facts.slew_step_at_most_delta; [lia | exact V | exact I]. }
  assert (M : meshMicros c' env = meshMicros c env + slew_step delta (_alpha c)).
  { unfold c'. rewrite baseline_handleReceive_parse, P. cbn [snd].
    rewrite (baseline_adjust_slew c env remote R S D).
    unfold meshMicros at 1. cbn [_offset set_offset set_lastSync].
    rewrite meshMicros_after_step. apply wrap64_small.
    pose proof (wrap64_range (clock_us env + _offset c)) as W.
    fold (meshMicros c env) in W. unfold delta in *. lia. }
  split; [exact St | ]. split; [exact M | ].
  rewrite M. unfold delta in *. lia.
Qed.

Lemma slew_never_overshoots_witness :
  let c := set_synced default_clock true in
  let env := {| clock_us := 1000000; millis := 40; random := fun lo _ => lo |} in
  let data := data_of_packet (make_packet 1000400) in
  parse_packet data 10 = Some 1000400 /\
  _synced c = true /\
  Float32.valid (_alpha c) /\ Float32.in_unit_interval (_alpha c) /\
  0 < 1000400 - meshMicros c env <= _largeStep c /\
  1000400 - meshMicros c env < 2 ^ 24 /\
  meshMicros (snd (Baseline.handleReceive c env bcastAddr data 10)) env <= 1000400.
Proof.
  intros c env data.
  assert (P : parse_packet data 10 = Some 1000400) by reflexivity.
  assert (S : _synced c = true) by reflexivity.
  assert (V : Float32.valid (_alpha c)) by reflexivity.
  assert (I : Float32.in_unit_interval (_alpha c)) by (split; reflexivity).
  assert (D : 0 < 1000400 - meshMicros c env <= _largeStep c)
    by (vm_compute; split; [reflexivity | discriminate]).
  assert (B : 1000400 - meshMicros c env < 2 ^ 24) by (vm_compute; reflexivity).
  repeat (split; [assumption | ]).
  apply (slew_never_overshoots c env bcastAddr data 10 1000400 P S V I D B).
Defined.

(** ** The forward-only revision: monotone mesh time *)

(** In the revision whose large step is forward-only, a reception never
    moves the mesh time back, and never moves it past the later of the
    local and the remote time.  The factor is in the unit interval and the
    threshold below 2^24, as with the default configuration. *)
Lemma forward_adjust_monotone c env remoteMicros :
  0 <= remoteMicros < 2 ^ 56 ->
  meshMicros c env < 2 ^ 63 ->
  Float32.valid (_alpha c) -> Float32.in_unit_interval (_alpha c) ->
  _largeStep c < 2 ^ 24 ->
  meshMicros c env <= meshMicros (ForwardOnly._adjust c env remoteMicros) env
  <= Z.max (meshMicros c env) remoteMicros.
Proof.
  intros R L V I T.
  pose proof (wrap64_range (clock_us env + _offset c)) as W.
  fold (meshMicros c env) in W.
  destruct (Z.le_gt_cases remoteMicros (meshMicros c env)) as [B | A].
  - destruct (forward_adjust_keeps_offset c env remoteMicros R L B) as [E _].
    unfold meshMicros at 2 3. rewrite E. fold (meshMicros c env). lia.
  - destruct (_synced c) eqn:S.
    + destruct (Z.le_gt_cases (remoteMicros - meshMicros c env) (_largeStep c))
        as [Sm | Lg].
      * rewrite forward_adjust_slew by (try assumption; lia).
        rewrite baseline_adjust_slew by (try assumption; lia).
        unfold meshMicros at 2 4. cbn [_offset set_offset set_lastSync].
        rewrite meshMicros_after_step.
        pose proof (Float32Facts.slew_step_at_most_delta
                      (remoteMicros - meshMicros c env) (_alpha c)
                      ltac:(lia) V I) as St.
        rewrite wrap64_small by lia. lia.
      * rewrite forward_adjust_large_forward by (try assumption; lia).
        unfold meshMicros at 2 4. cbn [_offset set_synced set_offset set_lastSync].
        rewrite meshMicros_after_step.
        replace (meshMicros c env + (remoteMicros - meshMicros c env))
          with remoteMicros by ring.
        rewrite wrap64_small by lia. lia.
    + rewrite forward_adjust_large_forward by (try assumption; auto; lia).
      unfold meshMicros at 2 4. cbn [_offset set_synced set_offset set_lastSync].
      rewrite meshMicros_after_step.
      replace (meshMicros c env + (remoteMicros - meshMicros c env))
        with remoteMicros by ring.
      rewrite wrap64_small by lia. lia.
Qed.

(** ** The two revisions side by side *)

(** On a buffer that is not a clock frame the radio callbacks agree. *)
Lemma forward_onReceive_non_clock inst env mac data len :
  parse_packet data len = None ->
  ForwardOnly._onReceive inst env mac data len
  = Baseline._onReceive inst env mac data len.
Proof.
  intros P. unfold ForwardOnly._onReceive, Baseline._onReceive.
  destruct inst as [c | ]; [ | reflexivity].
  rewrite forward_handleReceive_parse, baseline_handleReceive_parse, P.
  reflexivity.
Qed.

(** The scheduler is the same; only the stamp of the frame differs. *)
Lemma forward_loop_state T c env :
  fst (ForwardOnly.loop T c env) = fst (Baseline.loop c env) /\
  length (snd (ForwardOnly.loop T c env)) = length (snd (Baseline.loop c env)).
Proof.
  unfold ForwardOnly.loop, Baseline.loop.
  destruct (_nextBroadcastDelay c =? 0); case_if; split; reflexivity.
Qed.

Lemma forward_loop_zero_delay c env :
  ForwardOnly.loop 0 c env = Baseline.loop c env.
Proof.
  unfold ForwardOnly.loop, Baseline.loop.
  destruct (_nextBroadcastDelay c =? 0); case_if; try reflexivity;
    rewrite <- baseline_broadcast_is_zero_delay; reflexivity.
Qed.

(** ** The fields stay within their C++ types *)

Lemma default_clock_well_typed : well_typed default_clock.
Proof.
  constructor; unfold is_u8, is_u16, is_u32, is_u64, default_clock, construct;
    cbn [_interval _alpha _largeStep _syncTimeout _randomVariation _offset
         _lastSync _lastBroadcast _nextBroadcastDelay];
    try lia.
  reflexivity.
Qed.

Lemma baseline_adjust_well_typed c env remoteMicros :
  well_typed c -> env_typed env -> well_typed (Baseline._adjust c env remoteMicros).
Proof.
  intros [] []. unfold Baseline._adjust.
  repeat case_if;
    constructor;
    cbn [_interval _alpha _largeStep _syncTimeout _randomVariation _offset
         _lastSync _lastBroadcast _nextBroadcastDelay
         set_synced set_offset set_lastSync];
    try assumption; apply wrap64_range.
Qed.

Lemma forward_adjust_well_typed c env remoteMicros :
  well_typed c -> env_typed env -> well_typed (ForwardOnly._adjust c env remoteMicros).
Proof.
  intros [] []. unfold ForwardOnly._adjust.
  repeat case_if;
    constructor;
    cbn [_interval _alpha _largeStep _syncTimeout _randomVariation _offset
         _lastSync _lastBroadcast _nextBroadcastDelay
         set_synced set_offset set_lastSync];
    try assumption; apply wrap64_range.
Qed.

Lemma baseline_loop_well_typed c env :
  well_typed c -> env_typed env -> well_typed (fst (Baseline.loop c env)).
Proof.
  intros [] []. unfold Baseline.loop.
  repeat case_if;
    cbn [fst]; constructor;
    cbn [_interval _alpha _largeStep _syncTimeout _randomVariation _offset
         _lastSync _lastBroadcast _nextBroadcastDelay
         set_nextBroadcastDelay set_lastBroadcast];
    try assumption; try apply wrap32_range; unfold is_u32; lia.
Qed.

(** ** Worked receptions

    The default configuration: interval 1000 ms, factor 0.25, threshold
    10000 us, timeout 5000 ms, variation 10 percent. *)

(** Cold start, the remote clock ahead by two seconds: the first frame
    sets the mesh time to the remote stamp and the state to SYNCED. *)
Example cold_start_jumps_to_remote :
  let env := {| clock_us := 100000; millis := 40; random := fun lo _ => lo |} in
  let c' := snd (Baseline.handleReceive default_clock env bcastAddr
                   (data_of_packet (make_packet 2100000)) 10) in
  getSyncState default_clock env = ALONE /\
  meshMicros default_clock env = 100000 /\
  meshMicros c' env = 2100000 /\
  getSyncState c' env = SYNCED /\
  c' = snd (ForwardOnly.handleReceive default_clock env bcastAddr
              (data_of_packet (make_packet 2100000)) 10).
Proof. vm_compute. repeat split. Qed.

(** Steady state, a delta of 400 us: the offset moves by a quarter. *)
Example small_delta_is_slewed :
  let env := {| clock_us := 1000000; millis := 40; random := fun lo _ => lo |} in
  let c := set_synced default_clock true in
  let c' := snd (Baseline.handleReceive c env bcastAddr
                   (data_of_packet (make_packet 1000400)) 10) in
  _offset c' = 100 /\ meshMicros c' env = 1000100.
Proof. vm_compute. repeat split. Qed.

(** Steady state, the remote clock 500 us behind: the offset stays, the
    time of the last sync is refreshed, the state stays SYNCED. *)
Example small_negative_delta_is_ignored :
  let env := {| clock_us := 1000000; millis := 7000; random := fun lo _ => lo |} in
  let c := set_synced default_clock true in
  let c' := snd (Baseline.handleReceive c env bcastAddr
                   (data_of_packet (make_packet 999500)) 10) in
  getSyncState c env = LOST /\
  _offset c' = _offset c /\ _lastSync c' = 7000 /\ getSyncState c' env = SYNCED /\
  c' = snd (ForwardOnly.handleReceive c env bcastAddr
              (data_of_packet (make_packet 999500)) 10).
Proof. vm_compute. repeat split. Qed.

(** Silence for longer than the timeout gives LOST; one more valid frame
    gives SYNCED again. *)
Example sync_is_lost_and_regained :
  let at_ms t := {| clock_us := 100000 + 1000 * t; millis := t;
                    random := fun lo _ => lo |} in
  let c1 := snd (Baseline.handleReceive default_clock (at_ms 40) bcastAddr
                   (data_of_packet (make_packet 2100000)) 10) in
  let c2 := snd (Baseline.handleReceive c1 (at_ms 5041) bcastAddr
                   (data_of_packet (make_packet 7101500)) 10) in
  getSyncState c1 (at_ms 5040) = SYNCED /\
  getSyncState c1 (at_ms 5041) = LOST /\
  getSyncState c2 (at_ms 5041) = SYNCED.
Proof. vm_compute. repeat split. Qed.

(** The millisecond counter wraps after 2^32 ms; the age of the last sync
    is still computed correctly across the wrap. *)
Example sync_age_across_millis_wrap :
  let c := set_lastSync (set_synced default_clock true) (2 ^ 32 - 1000) in
  getSyncState c {| clock_us := 0; millis := 3000; random := fun lo _ => lo |} = SYNCED /\
  getSyncState c {| clock_us := 0; millis := 4001; random := fun lo _ => lo |} = LOST.
Proof. vm_compute. repeat split. Qed.

(** * Further properties *)

(** ** The bytes of an accepted frame *)

Lemma lor_shiftl_add x b k :
  0 <= k -> 0 <= x < 2 ^ k -> 0 <= b -> Z.lor x (Z.shiftl b k) = x + b * 2 ^ k.
Proof.
  intros Hk Hx Hb.
  assert (D : Z.land x (Z.shiftl b k) = 0).
  { apply Z.bits_inj'. intros n Hn.
    rewrite Z.land_spec, Z.bits_0.
    destruct (Z.lt_ge_cases n k) as [L | G].
    - rewrite Z.shiftl_spec_low by exact L. apply andb_false_r.
    - rewrite <- (Z.mod_small x (2 ^ k)) by exact Hx.
      rewrite Z.mod_pow2_bits_high by lia. reflexivity. }
  rewrite <- Z.lxor_lor by exact D.
  rewrite <- Z.add_nocarry_lxor by exact D.
  rewrite Z.shiftl_mul_pow2 by exact Hk. reflexivity.
Qed.

(** The unpacking loop computes the little-endian value of the seven
    timestamp bytes. *)
Lemma unpack_timestamp_le_value (ts : list byte) :
  unpack_timestamp ts
  = le_value [nth 0 ts x00; nth 1 ts x00; nth 2 ts x00; nth 3 ts x00;
              nth 4 ts x00; nth 5 ts x00; nth 6 ts x00].
Proof.
  unfold unpack_timestamp, unpack_step.
  cbn [seq fold_left Z.of_nat Pos.of_succ_nat Pos.succ Z.mul Pos.mul Pos.add le_value].
  pose proof (u8_range (nth 0 ts x00)) as B0.
  pose proof (u8_range (nth 1 ts x00)) as B1.
  pose proof (u8_range (nth 2 ts x00)) as B2.
  pose proof (u8_range (nth 3 ts x00)) as B3.
  pose proof (u8_range (nth 4 ts x00)) as B4.
  pose proof (u8_range (nth 5 ts x00)) as B5.
  pose proof (u8_range (nth 6 ts x00)) as B6.
  change (2 ^ 8) with 256 in *.
  rewrite Z.lor_0_l, Z.shiftl_0_r.
  rewrite (lor_shiftl_add _ _ 8) by (change (2 ^ 8) with 256; lia).
  rewrite (lor_shiftl_add _ _ 16) by (change (2 ^ 8) with 256; change (2 ^ 16) with 65536; lia).
  rewrite (lor_shiftl_add _ _ 24)
    by (change (2 ^ 8) with 256; change (2 ^ 16) with 65536;
        change (2 ^ 24) with 16777216; lia).
  rewrite (lor_shiftl_add _ _ 32)
    by (change (2 ^ 8) with 256; change (2 ^ 16) with 65536;
        change (2 ^ 24) with 16777216; change (2 ^ 32) with 4294967296; lia).
  rewrite (lor_shiftl_add _ _ 40)
    by (change (2 ^ 8) with 256; change (2 ^ 16) with 65536;
        change (2 ^ 24) with 16777216; change (2 ^ 32) with 4294967296;
        change (2 ^ 40) with 1099511627776; lia).
  rewrite (lor_shiftl_add _ _ 48)
    by (change (2 ^ 8) with 256; change (2 ^ 16) with 65536;
        change (2 ^ 24) with 16777216; change (2 ^ 32) with 4294967296;
        change (2 ^ 40) with 1099511627776; change (2 ^ 48) with 281474976710656;
        lia).
  change (2 ^ 8) with 256; change (2 ^ 16) with 65536;
    change (2 ^ 24) with 16777216; change (2 ^ 32) with 4294967296;
    change (2 ^ 40) with 1099511627776; change (2 ^ 48) with 281474976710656.
  lia.
Qed.

Lemma le_value_nonneg (bs : list byte) : 0 <= le_value bs.
Proof.
  induction bs as [ | b rest IH]; cbn [le_value]; [lia | ].
  pose proof (u8_range b). lia.
Qed.

(** Splitting the little-endian value of a list of bytes gives the bytes
    back. *)
Lemma split_le_value (bs : list byte) :
  map (fun i => to_u8 (Z.land (Z.shiftr (le_value bs) (Z.of_nat i * 8)) 255))
      (seq 0 (length bs))
  = bs.
Proof.
  induction bs as [ | b rest IH]; [reflexivity | ].
  cbn [length seq map le_value].
  pose proof (u8_range b) as Hb. pose proof (le_value_nonneg rest) as Hr.
  f_equal.
  - cbn [Z.of_nat Z.mul]. rewrite Z.shiftr_0_r.
    change 255 with (Z.ones 8). rewrite Z.land_ones by lia.
    rewrite (Z.mul_comm (2 ^ 8)), Z.mod_add by lia.
    rewrite Z.mod_small by exact Hb. apply to_u8_u8.
  - rewrite <- seq_shift, map_map. rewrite <- IH at 2.
    apply map_ext. intros i. f_equal. f_equal.
    rewrite !Z.shiftr_div_pow2 by lia.
    replace (Z.of_nat (S i) * 8) with (8 + Z.of_nat i * 8) by lia.
    rewrite Z.pow_add_r by lia.
    rewrite <- Z.div_div by (try apply Z.pow_pos_nonneg; lia).
    f_equal.
    rewrite (Z.mul_comm (2 ^ 8)), Z.div_add by lia.
    rewrite Z.div_small by exact Hb. lia.
Qed.

Lemma pack_unpack_timestamp (ts : list byte) :
  length ts = 7%nat -> pack_timestamp (unpack_timestamp ts) = ts.
Proof.
  intros L.
  destruct ts as [ | t0 [ | t1 [ | t2 [ | t3 [ | t4 [ | t5 [ | t6 [ | ? ?]]]]]]]];
    try discriminate L.
  rewrite unpack_timestamp_le_value. cbn [nth].
  exact (split_le_value [t0; t1; t2; t3; t4; t5; t6]).
Qed.

(** An accepted buffer, taken apart. *)
Lemma accepted_buffer_shape c env (mac data : list byte) (len : Z) :
  len = Z.of_nat (length data) ->
  fst (Baseline.handleReceive c env mac data len) = true ->
  len = 10 /\
  data = [x4d; x43; x4b] ++ skipn 3 data /\
  length (skipn 3 data) = 7%nat /\
  timestamp (packet_of_data data) = skipn 3 data.
Proof.
  intros L H.
  apply (baseline_handled_iff_prefix c env mac data len L) in H.
  destruct H as [N P].
  destruct data as [ | d0 [ | d1 [ | d2 [ | d3 [ | d4 [ | d5 [ | d6 [ | d7
                   [ | d8 [ | d9 [ | ? ?]]]]]]]]]]]; try discriminate N.
  cbn [firstn] in P. injection P as -> -> ->.
  repeat split. cbn in L. lia.
Qed.

(** X1. Every accepted buffer hands [_adjust] the little-endian value of its
    bytes 3 to 9, a number below 2^56. *)
Theorem accepted_stamp_is_little_endian c env (mac data : list byte) (len : Z) :
  len = Z.of_nat (length data) ->
  fst (Baseline.handleReceive c env mac data len) = true ->
  0 <= le_value (skipn 3 data) < 2 ^ 56 /\
  Baseline.handleReceive c env mac data len
  = (true, Baseline._adjust c env (le_value (skipn 3 data))) /\
  ForwardOnly.handleReceive c env mac data len
  = (true, ForwardOnly._adjust c env (le_value (skipn 3 data))).
Proof.
  intros L H.
  destruct (accepted_buffer_shape c env mac data len L H) as (E & _ & L7 & T).
  assert (U : unpack_timestamp (timestamp (packet_of_data data))
              = le_value (skipn 3 data)).
  { rewrite T, unpack_timestamp_le_value.
    destruct (skipn 3 data)
      as [ | t0 [ | t1 [ | t2 [ | t3 [ | t4 [ | t5 [ | t6 [ | ? ?]]]]]]]];
      try discriminate L7.
    reflexivity. }
  assert (P : parse_packet data len = Some (le_value (skipn 3 data))).
  { rewrite baseline_handleReceive_parse in H. unfold parse_packet in *.
    destruct (len =? sizeof_MeshClockPacket); [ | discriminate H].
    destruct (magic_ok (packet_of_data data)); [ | discriminate H].
    rewrite U. reflexivity. }
  split; [exact (parse_packet_range data len _ P) | ].
  rewrite baseline_handleReceive_parse, forward_handleReceive_parse, P.
  split; reflexivity.
Qed.

(** X2. Encoding the stamp of an accepted buffer gives the buffer back. *)
Theorem accepted_frame_reencodes c env (mac data : list byte) (len : Z) :
  len = Z.of_nat (length data) ->
  fst (Baseline.handleReceive c env mac data len) = true ->
  data_of_packet (make_packet (le_value (skipn 3 data))) = data /\
  data_of_packet
    (make_packet (unpack_timestamp (timestamp (packet_of_data data)))) = data.
Proof.
  intros L H.
  destruct (accepted_buffer_shape c env mac data len L H) as (E & D & L7 & T).
  assert (A : data_of_packet
                (make_packet (unpack_timestamp (timestamp (packet_of_data data))))
              = data).
  { unfold data_of_packet, make_packet. cbn [magic timestamp].
    rewrite T, pack_unpack_timestamp by exact L7.
    symmetry. exact D. }
  split; [ | exact A].
  rewrite <- A at 2. f_equal. f_equal.
  rewrite T, unpack_timestamp_le_value.
  destruct (skipn 3 data)
    as [ | t0 [ | t1 [ | t2 [ | t3 [ | t4 [ | t5 [ | t6 [ | ? ?]]]]]]]];
    try discriminate L7.
  reflexivity.
Qed.

(** ** What every reception does *)

Lemma wrap64_to_int64 a z : wrap64 (a + to_int64 z) = wrap64 (a + z).
Proof.
  unfold to_int64. destruct (wrap64 z <? 2 ^ 63).
  - apply wrap64_add_r.
  - replace (a + (wrap64 z - 2 ^ 64)) with (a + wrap64 z + (-1) * 2 ^ 64) by ring.
    unfold wrap64 at 1. rewrite Z.mod_add by lia.
    fold (wrap64 (a + wrap64 z)). apply wrap64_add_r.
Qed.

Lemma baseline_adjust_fields c env remoteMicros :
  let c' := Baseline._adjust c env remoteMicros in
  _synced c' = true /\ _lastSync c' = millis env /\
  _interval c' = _interval c /\ _alpha c' = _alpha c /\
  _largeStep c' = _largeStep c /\ _syncTimeout c' = _syncTimeout c /\
  _randomVariation c' = _randomVariation c /\
  _lastBroadcast c' = _lastBroadcast c /\
  _nextBroadcastDelay c' = _nextBroadcastDelay c /\
  _userCallback c' = _userCallback c.
Proof.
  unfold Baseline._adjust. cbv zeta.
  cbn [_synced _offset _largeStep _alpha set_lastSync].
  destruct (_synced c) eqn:S; cbn [negb orb]; repeat case_if;
    cbn [_synced _lastSync _interval _alpha _largeStep _syncTimeout
         _randomVariation _lastBroadcast _nextBroadcastDelay _userCallback
         set_synced set_offset set_lastSync];
    repeat split; assumption.
Qed.

Lemma forward_adjust_fields c env remoteMicros :
  let c' := ForwardOnly._adjust c env remoteMicros in
  _synced c' = true /\ _lastSync c' = millis env /\
  _interval c' = _interval c /\ _alpha c' = _alpha c /\
  _largeStep c' = _largeStep c /\ _syncTimeout c' = _syncTimeout c /\
  _randomVariation c' = _randomVariation c /\
  _lastBroadcast c' = _lastBroadcast c /\
  _nextBroadcastDelay c' = _nextBroadcastDelay c /\
  _userCallback c' = _userCallback c.
Proof.
  unfold ForwardOnly._adjust. cbv zeta.
  cbn [_synced _offset _largeStep _alpha set_lastSync].
  destruct (_synced c) eqn:S; cbn [negb orb]; repeat case_if;
    cbn [_synced _lastSync _interval _alpha _largeStep _syncTimeout
         _randomVariation _lastBroadcast _nextBroadcastDelay _userCallback
         set_synced set_offset set_lastSync];
    repeat split; assumption.
Qed.

(** X3. After an accepted frame the state is SYNCED for as long as the
    millisecond counter has moved by no more than the timeout since the
    reception, and LOST afterwards; it is never ALONE. *)
Theorem accepted_frame_synced_until_timeout c env (mac data : list byte) (len : Z) :
  fst (Baseline.handleReceive c env mac data len) = true ->
  forall env',
    getSyncState (snd (Baseline.handleReceive c env mac data len)) env'
    = (if wrap32 (millis env' - millis env) >? _syncTimeout c then LOST else SYNCED)
    /\
    getSyncState (snd (ForwardOnly.handleReceive c env mac data len)) env'
    = (if wrap32 (millis env' - millis env) >? _syncTimeout c then LOST else SYNCED).
Proof.
  intros H env'.
  rewrite baseline_handleReceive_parse in *. rewrite forward_handleReceive_parse.
  destruct (parse_packet data len) as [r | ]; [ | discriminate H].
  cbn [snd]. unfold getSyncState.
  destruct (baseline_adjust_fields c env r) as (S & L & _ & _ & _ & T & _).
  destruct (forward_adjust_fields c env r) as (S' & L' & _ & _ & _ & T' & _).
  rewrite S, L, T, S', L', T'. cbn [negb]. split; reflexivity.
Qed.

(** ** Sequences of calls *)

Lemma same_configuration_refl c : same_configuration c c.
Proof. repeat split. Qed.

Lemma same_configuration_trans c1 c2 c3 :
  same_configuration c1 c2 -> same_configuration c2 c3 -> same_configuration c1 c3.
Proof.
  unfold same_configuration.
  intros (A1 & A2 & A3 & A4 & A5 & A6) (B1 & B2 & B3 & B4 & B5 & B6).
  repeat split; congruence.
Qed.

Lemma baseline_loop_fields c env :
  let c' := fst (Baseline.loop c env) in
  _offset c' = _offset c /\ _synced c' = _synced c /\ _lastSync c' = _lastSync c /\
  same_configuration c c'.
Proof.
  unfold Baseline.loop, same_configuration. cbv zeta.
  destruct (_nextBroadcastDelay c =? 0); case_if; cbn [fst]; repeat split.
Qed.

Lemma forward_loop_fields T c env :
  let c' := fst (ForwardOnly.loop T c env) in
  _offset c' = _offset c /\ _synced c' = _synced c /\ _lastSync c' = _lastSync c /\
  same_configuration c c'.
Proof.
  destruct (forward_loop_state T c env) as [E _]. cbv zeta. rewrite E.
  apply baseline_loop_fields.
Qed.

Lemma baseline_step_fields c ev :
  same_configuration c (baseline_step c ev) /\
  (_synced c = true -> _synced (baseline_step c ev) = true).
Proof.
  destruct ev as [env mac data len | env]; cbn [baseline_step].
  - rewrite baseline_handleReceive_parse.
    destruct (parse_packet data len) as [r | ]; cbn [snd].
    + destruct (baseline_adjust_fields c env r)
        as (S & _ & A1 & A2 & A3 & A4 & A5 & _ & _ & A6).
      split; [repeat split; assumption | intros _; exact S].
    + split; [apply same_configuration_refl | auto].
  - destruct (baseline_loop_fields c env) as (_ & S & _ & K).
    split; [exact K | intros H; rewrite S; exact H].
Qed.

Lemma forward_step_fields T c ev :
  same_configuration c (forward_step T c ev) /\
  (_synced c = true -> _synced (forward_step T c ev) = true).
Proof.
  destruct ev as [env mac data len | env]; cbn [forward_step].
  - rewrite forward_handleReceive_parse.
    destruct (parse_packet data len) as [r | ]; cbn [snd].
    + destruct (forward_adjust_fields c env r)
        as (S & _ & A1 & A2 & A3 & A4 & A5 & _ & _ & A6).
      split; [repeat split; assumption | intros _; exact S].
    + split; [apply same_configuration_refl | auto].
  - destruct (forward_loop_fields T c env) as (_ & S & _ & K).
    split; [exact K | intros H; rewrite S; exact H].
Qed.

(** X4. No sequence of receptions and ticks changes the configuration or the
    registered callback, and a clock that is synced stays synced: its
    state is never ALONE again. *)
Theorem runs_keep_configuration (T : Z) (evs : list Event) (c : ESPNowMeshClock) :
  same_configuration c (baseline_run c evs) /\
  same_configuration c (forward_run T c evs) /\
  (_synced c = true ->
   forall env, getSyncState (baseline_run c evs) env <> ALONE /\
               getSyncState (forward_run T c evs) env <> ALONE).
Proof.
  assert (B : forall evs c,
             same_configuration c (baseline_run c evs) /\
             (_synced c = true -> _synced (baseline_run c evs) = true)).
  { clear. induction evs as [ | ev evs IH]; intros c; cbn [baseline_run fold_left].
    - split; [apply same_configuration_refl | auto].
    - destruct (baseline_step_fields c ev) as [K S].
      destruct (IH (baseline_step c ev)) as [K' S']. fold (baseline_run (baseline_step c ev) evs).
      split; [eapply same_configuration_trans; eassumption | auto]. }
  assert (F : forall evs c,
             same_configuration c (forward_run T c evs) /\
             (_synced c = true -> _synced (forward_run T c evs) = true)).
  { clear - T. induction evs as [ | ev evs IH]; intros c; cbn [forward_run fold_left].
    - split; [apply same_configuration_refl | auto].
    - destruct (forward_step_fields T c ev) as [K S].
      destruct (IH (forward_step T c ev)) as [K' S']. fold (forward_run T (forward_step T c ev) evs).
      split; [eapply same_configuration_trans; eassumption | auto]. }
  destruct (B evs c) as [KB SB]. destruct (F evs c) as [KF SF].
  split; [exact KB | ]. split; [exact KF | ].
  intros S env. unfold getSyncState. rewrite (SB S), (SF S). cbn [negb].
  split; case_if; discriminate.
Qed.

(** ** The forward-only revision never moves the offset back *)

Lemma forward_adjust_offset_grows c env r :
  0 <= r < 2 ^ 56 ->
  0 <= clock_us env < 2 ^ 62 ->
  0 <= _offset c < 2 ^ 56 ->
  Float32.valid (_alpha c) -> Float32.in_unit_interval (_alpha c) ->
  _largeStep c < 2 ^ 24 ->
  _offset c <= _offset (ForwardOnly._adjust c env r) < 2 ^ 56.
Proof.
  intros R K O V I T.
  assert (M : meshMicros c env = clock_us env + _offset c).
  { unfold meshMicros. apply wrap64_small. lia. }
  destruct (Z.le_gt_cases r (meshMicros c env)) as [B | A].
  - destruct (forward_adjust_keeps_offset c env r R ltac:(lia) B) as [E _].
    rewrite E. lia.
  - assert (Lg : ForwardOnly._adjust c env r
                 = set_synced
                     (set_offset (set_lastSync c (millis env))
                        (wrap64 (_offset c + (r - meshMicros c env)))) true
                 -> _offset c <= _offset (ForwardOnly._adjust c env r) < 2 ^ 56).
    { intros E. rewrite E. cbn [_offset set_synced set_offset set_lastSync].
      rewrite wrap64_small by lia. lia. }
    destruct (_synced c) eqn:S.
    + destruct (Z.le_gt_cases (r - meshMicros c env) (_largeStep c)) as [Sm | Big].
      * rewrite forward_adjust_slew by (try assumption; lia).
        rewrite baseline_adjust_slew by (try assumption; lia).
        cbn [_offset set_offset set_lastSync].
        pose proof (Float32Facts.slew_step_at_most_delta
                      (r - meshMicros c env) (_alpha c) ltac:(lia) V I) as St.
        rewrite wrap64_small by lia. lia.
      * apply Lg. apply forward_adjust_large_forward; [exact R | right; lia | lia].
    + apply Lg. apply forward_adjust_large_forward; [exact R | left; exact S | lia].
Qed.

Lemma forward_step_offset_grows T c ev :
  0 <= clock_us (event_env ev) < 2 ^ 62 ->
  0 <= _offset c < 2 ^ 56 ->
  Float32.valid (_alpha c) -> Float32.in_unit_interval (_alpha c) ->
  _largeStep c < 2 ^ 24 ->
  _offset c <= _offset (forward_step T c ev) < 2 ^ 56.
Proof.
  intros K O V I L. destruct ev as [env mac data len | env];
    cbn [forward_step event_env] in *.
  - rewrite forward_handleReceive_parse.
    destruct (parse_packet data len) as [r | ] eqn:P; cbn [snd]; [ | lia].
    apply forward_adjust_offset_grows; try assumption.
    exact (parse_packet_range data len r P).
  - destruct (forward_loop_fields T c env) as (E & _). rewrite E. lia.
Qed.

(** X5. In the forward-only revision, starting from an offset below 2^56 with
    a factor in the unit interval and a threshold below 2^24, no sequence
    of receptions and ticks taken at counter readings below 2^62 ever
    decreases the offset, whatever the buffers received; the mesh time
    read at a later counter value is never smaller. *)
Theorem forward_offset_never_decreases (T : Z) (evs : list Event) (c : ESPNowMeshClock) :
  Forall (fun ev => 0 <= clock_us (event_env ev) < 2 ^ 62) evs ->
  0 <= _offset c < 2 ^ 56 ->
  Float32.valid (_alpha c) -> Float32.in_unit_interval (_alpha c) ->
  _largeStep c < 2 ^ 24 ->
  _offset c <= _offset (forward_run T c evs) < 2 ^ 56 /\
  (forall env0 env1,
      0 <= clock_us env0 <= clock_us env1 -> clock_us env1 < 2 ^ 62 ->
      meshMicros c env0 <= meshMicros (forward_run T c evs) env1).
Proof.
  intros HF O V I L.
  assert (G : _offset c <= _offset (forward_run T c evs) < 2 ^ 56).
  { revert c O V I L. induction HF as [ | ev evs K _ IH]; intros c O V I L;
      cbn [forward_run fold_left]; [lia | ].
    fold (forward_run T (forward_step T c ev) evs).
    pose proof (forward_step_offset_grows T c ev K O V I L) as S.
    destruct (forward_step_fields T c ev) as [(_ & A & B & _) _].
    assert (_offset (forward_step T c ev)
            <= _offset (forward_run T (forward_step T c ev) evs) < 2 ^ 56).
    { apply IH; [lia | rewrite A; exact V | rewrite A; exact I | rewrite B; exact L]. }
    lia. }
  split; [exact G | ].
  intros env0 env1 K0 K1. unfold meshMicros.
  rewrite !wrap64_small by lia. lia.
Qed.

(** ** From one node's broadcast to another node's reception *)

Lemma baseline_loop_effects c env e :
  In e (snd (Baseline.loop c env)) -> e = Baseline._broadcast c env.
Proof.
  unfold Baseline.loop.
  destruct (_nextBroadcastDelay c =? 0);
    case_if; cbn [snd In]; try tauto; intros [<- | []]; reflexivity.
Qed.

Lemma forward_loop_effects T c env e :
  In e (snd (ForwardOnly.loop T c env)) -> e = ForwardOnly._broadcast T c env.
Proof.
  unfold ForwardOnly.loop.
  destruct (_nextBroadcastDelay c =? 0);
    case_if; cbn [snd In]; try tauto; intros [<- | []]; reflexivity.
Qed.

Lemma wrap64_mod_56 z : wrap64 z mod 2 ^ 56 = z mod 2 ^ 56.
Proof.
  unfold wrap64.
  rewrite <- (Z.land_ones _ 64), <- !(Z.land_ones _ 56) by lia.
  rewrite <- Z.land_assoc. reflexivity.
Qed.

(** X6. Whatever [loop] hands to the radio, in either revision, is a 10-byte
    frame for the broadcast address that [handleReceive] of any node, in
    either revision, accepts; the receiver is adjusted with the sender's
    stamp modulo 2^56. *)
Theorem broadcast_is_accepted_by_every_receiver (T : Z) cs es cr er (mac : list byte)
    (e : Effect) :
  In e (snd (Baseline.loop cs es)) \/ In e (snd (ForwardOnly.loop T cs es)) ->
  exists data stamp,
    e = EspNowSend bcastAddr data 10 /\
    length data = 10%nat /\
    (stamp = meshMicros cs es \/ stamp = meshMicros cs es + T) /\
    Baseline.handleReceive cr er mac data 10
    = (true, Baseline._adjust cr er (stamp mod 2 ^ 56)) /\
    ForwardOnly.handleReceive cr er mac data 10
    = (true, ForwardOnly._adjust cr er (stamp mod 2 ^ 56)).
Proof.
  intros [H | H].
  - apply baseline_loop_effects in H. subst e.
    exists (data_of_packet (make_packet (meshMicros cs es))), (meshMicros cs es).
    repeat split; [left; reflexivity | | ].
    + apply codec_keeps_low_56_bits.
    + rewrite forward_handleReceive_parse.
      change 10 with sizeof_MeshClockPacket. rewrite parse_made_packet. reflexivity.
  - apply forward_loop_effects in H. subst e.
    exists (data_of_packet (make_packet (wrap64 (meshMicros cs es + T)))),
      (meshMicros cs es + T).
    repeat split; [right; reflexivity | | ].
    + rewrite codec_keeps_low_56_bits, wrap64_mod_56. reflexivity.
    + rewrite forward_handleReceive_parse.
      change 10 with sizeof_MeshClockPacket.
      rewrite parse_made_packet, wrap64_mod_56. reflexivity.
Qed.

(** ** The large step of src/ESPNowMeshClock.cpp *)

Lemma baseline_adjust_direct_set c env r :
  0 <= r < 2 ^ 64 ->
  (negb (_synced c)
   || (abs64 (to_int64 (r - wrap64 (clock_us env + _offset c))) >? _largeStep c))
  = true ->
  meshMicros (Baseline._adjust c env r) env = r.
Proof.
  intros R H. unfold Baseline._adjust. cbv zeta.
  cbn [_synced _offset _largeStep set_lastSync]. rewrite H.
  unfold meshMicros at 1. cbn [_offset set_synced set_offset set_lastSync].
  rewrite meshMicros_after_step, wrap64_to_int64.
  fold (meshMicros c env).
  replace (meshMicros c env + (r - meshMicros c env)) with r by ring.
  apply wrap64_small. exact R.
Qed.

(** X7. In src/ESPNowMeshClock.cpp, a reception by a clock that is not synced,
    or whose mesh time differs from the stamp by more than the threshold,
    sets the mesh time to the stamp, ahead or behind. *)
Theorem baseline_large_step_sets_clock c env (mac data : list byte) (len remote : Z) :
  parse_packet data len = Some remote ->
  _synced c = false
  \/ (meshMicros c env < 2 ^ 63
      /\ Z.abs (remote - meshMicros c env) > _largeStep c) ->
  let c' := snd (Baseline.handleReceive c env mac data len) in
  meshMicros c' env = remote /\ _synced c' = true /\ _lastSync c' = millis env.
Proof.
  intros P H c'. pose proof (parse_packet_range data len remote P) as R.
  unfold c'. rewrite baseline_handleReceive_parse, P. cbn [snd].
  destruct (baseline_adjust_fields c env remote) as (S & L & _).
  split; [ | split; assumption].
  apply baseline_adjust_direct_set; [lia | ].
  destruct H as [-> | [B G]]; [reflexivity | ].
  rewrite (delta_when_behind c env remote R B).
  pose proof (wrap64_range (clock_us env + _offset c)) as W.
  fold (meshMicros c env) in W.
  rewrite abs64_small by lia.
  destruct (Z.gtb_spec (Z.abs (remote - meshMicros c env)) (_largeStep c)); [ | lia].
  apply orb_true_r.
Qed.

(** ** Where the two revisions of [_adjust] agree *)

Lemma wrap64_shift_neq o d :
  0 <= o < 2 ^ 64 -> - 2 ^ 63 < d < 0 -> wrap64 (o + d) <> o.
Proof.
  intros Ho Hd E. unfold wrap64 in E.
  destruct (Z.le_gt_cases 0 (o + d)) as [P | N].
  - rewrite Z.mod_small in E by lia. lia.
  - assert (X : (o + d) mod 2 ^ 64 = o + d + 2 ^ 64).
    { symmetry. apply (Z.mod_unique_pos _ _ (-1)); lia. }
    lia.
Qed.

(** X8. A synced clock ignores a stamp that is behind by no more than the
    threshold: only the time of the last sync is refreshed.  Both
    revisions do so. *)
Theorem synced_clock_ignores_small_backward_stamp c env (mac data : list byte)
    (len remote : Z) :
  parse_packet data len = Some remote ->
  _synced c = true ->
  meshMicros c env < 2 ^ 63 ->
  remote <= meshMicros c env ->
  meshMicros c env - remote <= _largeStep c ->
  snd (Baseline.handleReceive c env mac data len) = set_lastSync c (millis env) /\
  snd (ForwardOnly.handleReceive c env mac data len) = set_lastSync c (millis env).
Proof.
  intros P S B A L. pose proof (parse_packet_range data len remote P) as R.
  rewrite baseline_handleReceive_parse, forward_handleReceive_parse, P. cbn [snd].
  unfold Baseline._adjust, ForwardOnly._adjust. cbv zeta.
  rewrite (delta_when_behind c env remote R B).
  pose proof (wrap64_range (clock_us env + _offset c)) as W.
  fold (meshMicros c env) in W.
  rewrite abs64_small by lia.
  cbn [_synced _offset _largeStep _alpha set_lastSync]. rewrite S. cbn [negb orb].
  destruct (Z.gtb_spec (Z.abs (remote - meshMicros c env)) (_largeStep c)); [lia | ].
  destruct (Z.gtb_spec (remote - meshMicros c env) 0); [lia | ].
  split; reflexivity.
Qed.

(** X9. The two revisions of [_adjust] give the same clock on every accepted
    frame except when the stamp is behind the local mesh time and the
    clock is not synced or is behind by more than the threshold: there
    src/ESPNowMeshClock.cpp moves the offset and the later revision does
    not. *)
Theorem revisions_differ_only_on_large_backward_step c env (mac data : list byte)
    (len remote : Z) :
  parse_packet data len = Some remote ->
  meshMicros c env < 2 ^ 63 ->
  0 <= _offset c < 2 ^ 64 ->
  (snd (Baseline.handleReceive c env mac data len)
   = snd (ForwardOnly.handleReceive c env mac data len)
   <->
   ~ (remote < meshMicros c env
      /\ (_synced c = false \/ meshMicros c env - remote > _largeStep c))).
Proof.
  intros P B O. pose proof (parse_packet_range data len remote P) as R.
  rewrite baseline_handleReceive_parse, forward_handleReceive_parse, P. cbn [snd].
  unfold Baseline._adjust, ForwardOnly._adjust. cbv zeta.
  rewrite (delta_when_behind c env remote R B).
  pose proof (wrap64_range (clock_us env + _offset c)) as W.
  fold (meshMicros c env) in W.
  rewrite abs64_small by lia.
  cbn [_synced _offset _largeStep _alpha set_lastSync].
  set (d := remote - meshMicros c env).
  assert (Bad : d < 0 ->
                set_synced (set_offset (set_lastSync c (millis env))
                              (wrap64 (_offset c + d))) true
                <> set_synced (set_lastSync c (millis env)) true).
  { intros N E. apply (f_equal _offset) in E.
    cbn [_offset set_synced set_offset set_lastSync] in E.
    apply (wrap64_shift_neq (_offset c) d); [exact O | unfold d; lia | exact E]. }
  assert (Zero : d = 0 ->
                 set_synced (set_offset (set_lastSync c (millis env))
                               (wrap64 (_offset c + d))) true
                 = set_synced (set_lastSync c (millis env)) true).
  { intros ->. rewrite Z.add_0_r, wrap64_small by exact O.
    destruct c. reflexivity. }
  destruct (_synced c) eqn:S; cbn [negb orb].
  - destruct (Z.gtb_spec (Z.abs d) (_largeStep c)) as [G | G].
    + destruct (Z.gtb_spec d 0) as [Pd | Nd].
      * split; [intros _ [X _]; unfold d in *; lia | reflexivity].
      * destruct (Z.eq_dec d 0) as [Z0 | NZ].
        -- split; [intros _ [X _]; unfold d in *; lia | intros _; apply Zero, Z0].
        -- split.
           ++ intros E. exfalso. apply (Bad ltac:(lia)). exact E.
           ++ intros X. exfalso. apply X. unfold d in *. split; [lia | right; lia].
    + split; [ | reflexivity].
      intros _ [X [Y | Y]]; [discriminate Y | unfold d in *; lia].
  - destruct (Z.gtb_spec d 0) as [Pd | Nd].
    + split; [intros _ [X _]; unfold d in *; lia | reflexivity].
    + destruct (Z.eq_dec d 0) as [Z0 | NZ].
      * split; [intros _ [X _]; unfold d in *; lia | intros _; apply Zero, Z0].
      * split.
        -- intros E. exfalso. apply (Bad ltac:(lia)). exact E.
        -- intros X. exfalso. apply X. unfold d in *. split; [lia | left; reflexivity].
Qed.

(** ** Two nodes *)

(** X10. In src/ESPNowMeshClock.cpp, a node that is not synced and receives
    the frame another node's [loop] has just sent reads, at the moment of
    reception, the mesh time the sender stamped (a stamp below 2^56), and
    its state is SYNCED. *)
Theorem baseline_first_frame_syncs_receiver cs es cr er (mac : list byte) (e : Effect) :
  In e (snd (Baseline.loop cs es)) ->
  meshMicros cs es < 2 ^ 56 ->
  _synced cr = false ->
  0 <= _syncTimeout cr ->
  exists data len,
    e = EspNowSend bcastAddr data len /\
    meshMicros (snd (Baseline.handleReceive cr er mac data len)) er = meshMicros cs es /\
    getSyncState (snd (Baseline.handleReceive cr er mac data len)) er = SYNCED.
Proof.
  intros H B S T. apply baseline_loop_effects in H. subst e.
  exists (data_of_packet (make_packet (meshMicros cs es))), 10.
  split; [reflexivity | ].
  pose proof (wrap64_range (clock_us es + _offset cs)) as W.
  fold (meshMicros cs es) in W.
  rewrite codec_keeps_low_56_bits, Z.mod_small by lia. cbn [snd].
  destruct (baseline_adjust_fields cr er (meshMicros cs es)) as (S' & L & _ & _ & _ & K & _).
  split.
  - apply baseline_adjust_direct_set; [lia | rewrite S; reflexivity].
  - unfold getSyncState. rewrite S', L, K, Z.sub_diag. cbn [negb].
    change (wrap32 0) with 0.
    destruct (Z.gtb_spec 0 (_syncTimeout cr)); [lia | reflexivity].
Qed.

(** X11. In the forward-only revision the receiver takes the later of its own
    mesh time and the sender's stamp, which is the sender's mesh time plus
    the transmission delay. *)
Theorem forward_first_frame_syncs_receiver (T : Z) cs es cr er (mac : list byte)
    (e : Effect) :
  In e (snd (ForwardOnly.loop T cs es)) ->
  0 <= meshMicros cs es + T < 2 ^ 56 ->
  _synced cr = false ->
  meshMicros cr er < 2 ^ 63 ->
  exists data len,
    e = EspNowSend bcastAddr data len /\
    meshMicros (snd (ForwardOnly.handleReceive cr er mac data len)) er
    = Z.max (meshMicros cr er) (meshMicros cs es + T) /\
    _synced (snd (ForwardOnly.handleReceive cr er mac data len)) = true.
Proof.
  intros H B S L. apply forward_loop_effects in H. subst e.
  exists (data_of_packet (make_packet (wrap64 (meshMicros cs es + T)))), 10.
  split; [reflexivity | ].
  set (s := meshMicros cs es + T) in *.
  assert (P : parse_packet (data_of_packet (make_packet (wrap64 s))) 10 = Some s).
  { change 10 with sizeof_MeshClockPacket.
    rewrite parse_made_packet, wrap64_mod_56, Z.mod_small by lia. reflexivity. }
  rewrite forward_handleReceive_parse, P. cbn [snd].
  destruct (forward_adjust_fields cr er s) as (S' & _).
  split; [ | exact S'].
  destruct (Z.le_gt_cases s (meshMicros cr er)) as [Le | Gt].
  - destruct (forward_adjust_keeps_offset cr er s ltac:(lia) L Le) as [E _].
    unfold meshMicros at 1. rewrite E. fold (meshMicros cr er). lia.
  - rewrite forward_adjust_large_forward by (try lia; left; exact S).
    unfold meshMicros at 1. cbn [_offset set_synced set_offset set_lastSync].
    rewrite meshMicros_after_step.
    replace (meshMicros cr er + (s - meshMicros cr er)) with s by ring.
    rewrite wrap64_small by lia. lia.
Qed.

(** ** The gaps between broadcasts *)

(** X12. With a stored delay that is 0 or within the variation of the
    interval, [loop] sends nothing before [interval - variation]
    milliseconds have passed since the last broadcast and always sends one
    frame once [interval + variation] have passed, whatever [random]
    draws; the delay it leaves is again 0 or within the variation. *)
Theorem loop_gap_bounds (T : Z) (c : ESPNowMeshClock) (env : Env) :
  is_u16 (_interval c) ->
  0 <= _randomVariation c <= 100 ->
  random_ok env ->
  let variation := _interval c * _randomVariation c / 100 in
  let elapsed := wrap32 (millis env - _lastBroadcast c) in
  _nextBroadcastDelay c = 0
  \/ _interval c - variation <= _nextBroadcastDelay c <= _interval c + variation ->
  (elapsed < _interval c - variation ->
   snd (Baseline.loop c env) = [] /\ snd (ForwardOnly.loop T c env) = []) /\
  (_interval c + variation <= elapsed ->
   snd (Baseline.loop c env) = [Baseline._broadcast c env] /\
   snd (ForwardOnly.loop T c env) = [ForwardOnly._broadcast T c env]) /\
  (_nextBroadcastDelay (fst (Baseline.loop c env)) = 0
   \/ _interval c - variation <= _nextBroadcastDelay (fst (Baseline.loop c env))
      <= _interval c + variation) /\
  (_nextBroadcastDelay (fst (ForwardOnly.loop T c env)) = 0
   \/ _interval c - variation <= _nextBroadcastDelay (fst (ForwardOnly.loop T c env))
      <= _interval c + variation).
Proof.
  intros HI HV HR variation elapsed HD.
  pose proof (variation_bounds c HI HV) as VB. fold variation in VB.
  unfold Baseline.loop, ForwardOnly.loop. fold variation.
  set (r := random env (- variation) (variation + 1)).
  assert (Rr : - variation <= r < variation + 1) by (apply HR; lia).
  assert (W : wrap32 (_interval c + r) = _interval c + r).
  { apply wrap32_small. unfold is_u16 in HI. lia. }
  rewrite W. fold elapsed.
  destruct (Z.eqb_spec (_nextBroadcastDelay c) 0) as [Z0 | NZ];
    cbn [_lastBroadcast _nextBroadcastDelay set_nextBroadcastDelay]; fold elapsed.
  - destruct (Z.geb_spec elapsed (_interval c + r)) as [G | G];
      cbn [fst snd _nextBroadcastDelay set_nextBroadcastDelay set_lastBroadcast];
      repeat split; try reflexivity; try lia; intros; try lia.
  - destruct HD as [HD | HD]; [contradiction | ].
    destruct (Z.geb_spec elapsed (_nextBroadcastDelay c)) as [G | G];
      cbn [fst snd _nextBroadcastDelay set_nextBroadcastDelay set_lastBroadcast];
      repeat split; try reflexivity; try lia; intros; try lia.
Qed.

(** ** The user callback *)

Lemma baseline_adjust_setUserCallback c cb env r :
  Baseline._adjust (setUserCallback c cb) env r
  = setUserCallback (Baseline._adjust c env r) cb.
Proof.
  unfold Baseline._adjust. cbv zeta.
  cbn [_synced _offset _largeStep _alpha set_lastSync setUserCallback].
  repeat case_if; reflexivity.
Qed.

Lemma forward_adjust_setUserCallback c cb env r :
  ForwardOnly._adjust (setUserCallback c cb) env r
  = setUserCallback (ForwardOnly._adjust c env r) cb.
Proof.
  unfold ForwardOnly._adjust. cbv zeta.
  cbn [_synced _offset _largeStep _alpha set_lastSync setUserCallback].
  repeat case_if; reflexivity.
Qed.

(** X13. The radio callback and a direct call of [handleReceive] leave the
    same clock, in both revisions; a clock frame is never handed to the
    user callback; and without a clock object the radio callback does
    nothing. *)
Theorem owning_mode_matches_delegated_mode c env (mac data : list byte) (len : Z) :
  fst (Baseline._onReceive (Some c) env mac data len)
  = Some (snd (Baseline.handleReceive c env mac data len)) /\
  fst (ForwardOnly._onReceive (Some c) env mac data len)
  = Some (snd (ForwardOnly.handleReceive c env mac data len)) /\
  (fst (Baseline.handleReceive c env mac data len) = true ->
   snd (Baseline._onReceive (Some c) env mac data len) = [] /\
   snd (ForwardOnly._onReceive (Some c) env mac data len) = []) /\
  Baseline._onReceive None env mac data len = (None, []) /\
  ForwardOnly._onReceive None env mac data len = (None, []).
Proof.
  unfold Baseline._onReceive, ForwardOnly._onReceive.
  rewrite baseline_handleReceive_parse, forward_handleReceive_parse.
  destruct (parse_packet data len) as [r | ]; cbn [fst snd negb].
  - repeat split.
  - destruct (_userCallback c); repeat split; discriminate.
Qed.

(** X14. Registering a callback commutes with the handling of a buffer, and
    the callback registered last is the one that receives the buffers
    that are not clock frames. *)
Theorem setUserCallback_commutes_with_reception c (cb cb' : option ESPNowRecvCallback)
    env (mac data : list byte) (len : Z) :
  Baseline.handleReceive (setUserCallback c cb) env mac data len
  = (fst (Baseline.handleReceive c env mac data len),
     setUserCallback (snd (Baseline.handleReceive c env mac data len)) cb) /\
  ForwardOnly.handleReceive (setUserCallback c cb) env mac data len
  = (fst (ForwardOnly.handleReceive c env mac data len),
     setUserCallback (snd (ForwardOnly.handleReceive c env mac data len)) cb) /\
  (fst (Baseline.handleReceive c env mac data len) = false ->
   snd (Baseline._onReceive
          (Some (setUserCallback (setUserCallback c cb') cb)) env mac data len)
   = match cb with
     | Some f => [UserCallback f mac data len]
     | None => []
     end).
Proof.
  unfold Baseline._onReceive.
  rewrite !baseline_handleReceive_parse, !forward_handleReceive_parse.
  destruct (parse_packet data len) as [r | ]; cbn [fst snd negb].
  - rewrite baseline_adjust_setUserCallback, forward_adjust_setUserCallback.
    repeat split. discriminate.
  - repeat split. intros _. cbn [_userCallback setUserCallback].
    destruct cb; reflexivity.
Qed.

(** ** The millisecond view of the mesh time *)

(** X15. [meshMillis] is the mesh time in milliseconds modulo 2^32; the 32-bit
    difference of two readings is the number of milliseconds between
    them, as long as that number is below 2^32. *)
Theorem mesh_millis_elapsed c1 env1 c2 env2 :
  meshMicros c1 env1 <= meshMicros c2 env2 ->
  meshMicros c2 env2 / 1000 - meshMicros c1 env1 / 1000 < 2 ^ 32 ->
  wrap32 (meshMillis c2 env2 - meshMillis c1 env1)
  = meshMicros c2 env2 / 1000 - meshMicros c1 env1 / 1000 /\
  (meshMicros c1 env1 < 1000 * 2 ^ 32 -> meshMillis c1 env1 = meshMicros c1 env1 / 1000).
Proof.
  intros Le B. split.
  - unfold meshMillis, wrap32.
    rewrite <- Zminus_mod. apply Z.mod_small.
    split; [ | exact B].
    assert (meshMicros c1 env1 / 1000 <= meshMicros c2 env2 / 1000)
      by (apply Z.div_le_mono; lia).
    lia.
  - intros S. unfold meshMillis. apply wrap32_small.
    pose proof (wrap64_range (clock_us env1 + _offset c1)) as W.
    fold (meshMicros c1 env1) in W.
    split; [apply Z.div_pos; lia | apply Z.div_lt_upper_bound; lia].
Qed.

(** ** The slew step of a small delta *)

(** X16. With a factor [2^(-k)] a synced clock moves its offset by
    [delta / 2^k], rounded down: a delta below [2^k] (1 to 3 microseconds
    with the default factor 0.25) leaves the offset where it is. *)
Theorem slew_dead_zone c env (mac data : list byte) (len remote k : Z) :
  parse_packet data len = Some remote ->
  _synced c = true ->
  0 <= _offset c < 2 ^ 64 ->
  0 <= k <= 126 ->
  _alpha c = Float32.of_scaled 1 (- k) ->
  0 < remote - meshMicros c env <= _largeStep c ->
  remote - meshMicros c env < 2 ^ 24 ->
  let c' := snd (Baseline.handleReceive c env mac data len) in
  _offset c' = wrap64 (_offset c + (remote - meshMicros c env) / 2 ^ k) /\
  (remote - meshMicros c env < 2 ^ k ->
   _offset c' = _offset c /\ meshMicros c' env = meshMicros c env) /\
  snd (ForwardOnly.handleReceive c env mac data len) = c'.
Proof.
  intros P S O Hk A D B c'. pose proof (parse_packet_range data len remote P) as R.
  assert (E : c' = set_offset (set_lastSync c (millis env))
                     (wrap64 (_offset c + (remote - meshMicros c env) / 2 ^ k))).
  { unfold c'. rewrite baseline_handleReceive_parse, P. cbn [snd].
    rewrite (baseline_adjust_slew c env remote R S D), A.
    destruct (Float32Facts.slew_step_pow2 (remote - meshMicros c env) k) as [X _];
      [lia | exact Hk | ].
    rewrite X. reflexivity. }
  split; [rewrite E; reflexivity | ]. split.
  - intros Small. rewrite E.
    rewrite Z.div_small by lia. rewrite Z.add_0_r, wrap64_small by exact O.
    split; reflexivity.
  - rewrite forward_handleReceive_parse, P. cbn [snd].
    rewrite (forward_adjust_slew c env remote R S D).
    unfold c'. rewrite baseline_handleReceive_parse, P. reflexivity.
Qed.

(** ** The revision without a frame header *)

Lemma load_store_uint64 stamp :
  RawFrame.load_uint64 (RawFrame.store_uint64 stamp) = stamp mod 2 ^ 64.
Proof.
  unfold RawFrame.load_uint64, RawFrame.store_uint64, unpack_step.
  cbn [seq map fold_left nth Z.of_nat Pos.of_succ_nat Pos.succ Z.mul Pos.mul Pos.add].
  apply Z.bits_inj'. intros n Hn.
  rewrite !Z.lor_spec, !byte_slice_testbit by lia.
  rewrite Z.testbit_mod_pow2 by lia.
  rewrite Z.testbit_0_l.
  destruct (Z.testbit stamp n); cbn [andb orb].
  2: { rewrite andb_false_r. reflexivity. }
  repeat match goal with
         | |- context [?a <=? ?b] => destruct (Z.leb_spec a b); try lia
         | |- context [?a <? ?b] => destruct (Z.ltb_spec a b); try lia
         end; reflexivity.
Qed.

Lemma shifted_byte_range64 b k :
  0 <= k <= 56 -> 0 <= Z.shiftl (u8 b) k < 2 ^ 64.
Proof.
  intros Hk. rewrite Z.shiftl_mul_pow2 by lia.
  pose proof (u8_range b) as Hb.
  assert (P : 0 < 2 ^ k) by pow2_pos.
  assert (Q : 2 ^ 8 * 2 ^ k <= 2 ^ 64).
  { rewrite <- Z.pow_add_r by lia. apply Z.pow_le_mono_r; lia. }
  nia.
Qed.

Lemma load_uint64_range data : 0 <= RawFrame.load_uint64 data < 2 ^ 64.
Proof.
  unfold RawFrame.load_uint64, unpack_step.
  cbn [seq fold_left Z.of_nat Pos.of_succ_nat Pos.succ Z.mul Pos.mul Pos.add].
  repeat (apply lor_below_pow2; [lia | | apply shifted_byte_range64; lia]).
  lia.
Qed.

(** X17. In the revision without a frame header the receiver is adjusted with
    the sender's whole 64-bit mesh time, where the 10-byte frame carries
    its low 56 bits. *)
Theorem raw_frame_carries_whole_stamp cs es cr er (mac : list byte) :
  exists data,
    RawFrame._broadcast cs es = EspNowSend bcastAddr data 8 /\
    length data = 8%nat /\
    RawFrame._onReceive (Some cr) er mac data 8
    = Some (Baseline._adjust cr er (meshMicros cs es)) /\
    sent_timestamp (Baseline._broadcast cs es) = Some (meshMicros cs es mod 2 ^ 56).
Proof.
  exists (RawFrame.store_uint64 (meshMicros cs es)).
  split; [reflexivity | ]. split; [reflexivity | ]. split.
  - unfold RawFrame._onReceive. cbn [Z.eqb RawFrame.sizeof_uint64_t Pos.eqb].
    rewrite load_store_uint64.
    rewrite Z.mod_small; [reflexivity | ].
    unfold meshMicros. apply wrap64_range.
  - unfold Baseline._broadcast, sent_timestamp. cbv zeta.
    rewrite parse_made_packet. reflexivity.
Qed.

(** X18. The two frame formats do not mix, and the header is what protects the
    clock: the 8-byte frame is never a clock frame for [handleReceive],
    the 10-byte frame leaves a receiver of the headerless revision as it
    is, and that receiver takes any 8-byte buffer for a stamp: if it is
    not synced, its mesh time becomes the number the buffer holds. *)
Theorem raw_and_headed_frames_do_not_mix c env (mac data : list byte) :
  Baseline.handleReceive c env mac data 8 = (false, c) /\
  ForwardOnly.handleReceive c env mac data 8 = (false, c) /\
  RawFrame._onReceive (Some c) env mac data 10 = Some c /\
  (_synced c = false ->
   exists c', RawFrame._onReceive (Some c) env mac data 8 = Some c' /\
              meshMicros c' env = RawFrame.load_uint64 data /\
              getSyncState c' env <> ALONE).
Proof.
  rewrite baseline_handleReceive_parse, forward_handleReceive_parse.
  unfold parse_packet. cbn [Z.eqb sizeof_MeshClockPacket Pos.eqb].
  repeat split.
  intros S. eexists. split; [reflexivity | ]. split.
  - apply baseline_adjust_direct_set; [apply load_uint64_range | ].
    rewrite S. reflexivity.
  - unfold getSyncState.
    destruct (baseline_adjust_fields c env (RawFrame.load_uint64 data)) as [-> _].
    cbn [negb]. case_if; discriminate.
Qed.

(** ** The properties at concrete inputs *)

Ltac by_computation :=
  vm_compute; repeat split; first [reflexivity | discriminate].

Lemma accepted_stamp_is_little_endian_witness :
  let env := {| clock_us := 100000; millis := 40; random := fun lo _ => lo |} in
  let data := data_of_packet (make_packet 2100000) in
  10 = Z.of_nat (length data) /\
  fst (Baseline.handleReceive default_clock env bcastAddr data 10) = true /\
  Baseline.handleReceive default_clock env bcastAddr data 10
  = (true, Baseline._adjust default_clock env (le_value (skipn 3 data))).
Proof.
  intros env data.
  assert (L : 10 = Z.of_nat (length data)) by reflexivity.
  assert (H : fst (Baseline.handleReceive default_clock env bcastAddr data 10) = true)
    by reflexivity.
  split; [exact L | ]. split; [exact H | ].
  exact (proj1 (proj2 (accepted_stamp_is_little_endian
                         default_clock env bcastAddr data 10 L H))).
Defined.

Lemma accepted_frame_reencodes_witness :
  let env := {| clock_us := 100000; millis := 40; random := fun lo _ => lo |} in
  let data := [x4d; x43; x4b; x01; x02; x03; x04; x05; x06; x07] in
  10 = Z.of_nat (length data) /\
  fst (Baseline.handleReceive default_clock env bcastAddr data 10) = true /\
  data_of_packet (make_packet (le_value (skipn 3 data))) = data.
Proof.
  intros env data.
  assert (L : 10 = Z.of_nat (length data)) by reflexivity.
  assert (H : fst (Baseline.handleReceive default_clock env bcastAddr data 10) = true)
    by reflexivity.
  split; [exact L | ]. split; [exact H | ].
  exact (proj1 (accepted_frame_reencodes default_clock env bcastAddr data 10 L H)).
Defined.

Lemma accepted_frame_synced_until_timeout_witness :
  let env := {| clock_us := 100000; millis := 40; random := fun lo _ => lo |} in
  let env' := {| clock_us := 9100000; millis := 9040; random := fun lo _ => lo |} in
  let data := data_of_packet (make_packet 2100000) in
  fst (Baseline.handleReceive default_clock env bcastAddr data 10) = true /\
  getSyncState (snd (ForwardOnly.handleReceive default_clock env bcastAddr data 10)) env'
  = (if wrap32 (millis env' - millis env) >? _syncTimeout default_clock
     then LOST else SYNCED).
Proof.
  intros env env' data.
  assert (H : fst (Baseline.handleReceive default_clock env bcastAddr data 10) = true)
    by reflexivity.
  split; [exact H | ].
  exact (proj2 (accepted_frame_synced_until_timeout
                  default_clock env bcastAddr data 10 H env')).
Defined.

Lemma forward_offset_never_decreases_witness :
  let env := {| clock_us := 100000; millis := 40; random := fun lo _ => lo |} in
  let env' := {| clock_us := 200000; millis := 140; random := fun lo _ => lo |} in
  let evs := [Receive env bcastAddr (data_of_packet (make_packet 2100000)) 10;
              Tick env';
              Receive env' bcastAddr (data_of_packet (make_packet 1500000)) 10] in
  Forall (fun ev => 0 <= clock_us (event_env ev) < 2 ^ 62) evs /\
  0 <= _offset default_clock < 2 ^ 56 /\
  Float32.valid (_alpha default_clock) /\
  Float32.in_unit_interval (_alpha default_clock) /\
  _largeStep default_clock < 2 ^ 24 /\
  _offset default_clock
  <= _offset (forward_run ForwardOnly.DEFAULT_TRANSMISSION_DELAY_US default_clock evs)
  < 2 ^ 56.
Proof.
  intros env env' evs.
  assert (F : Forall (fun ev => 0 <= clock_us (event_env ev) < 2 ^ 62) evs)
    by (repeat constructor; discriminate).
  assert (O : 0 <= _offset default_clock < 2 ^ 56) by by_computation.
  assert (V : Float32.valid (_alpha default_clock)) by reflexivity.
  assert (I : Float32.in_unit_interval (_alpha default_clock)) by (split; reflexivity).
  assert (L : _largeStep default_clock < 2 ^ 24) by by_computation.
  repeat (split; [assumption | ]).
  exact (proj1 (forward_offset_never_decreases
                  ForwardOnly.DEFAULT_TRANSMISSION_DELAY_US evs default_clock F O V I L)).
Defined.

Lemma broadcast_is_accepted_by_every_receiver_witness :
  let es := {| clock_us := 5000; millis := 1100; random := fun _ hi => hi - 1 |} in
  let er := {| clock_us := 777; millis := 3; random := fun lo _ => lo |} in
  let e := Baseline._broadcast default_clock es in
  (In e (snd (Baseline.loop default_clock es))
   \/ In e (snd (ForwardOnly.loop ForwardOnly.DEFAULT_TRANSMISSION_DELAY_US
                   default_clock es))) /\
  exists data stamp,
    e = EspNowSend bcastAddr data 10 /\
    length data = 10%nat /\
    (stamp = meshMicros default_clock es
     \/ stamp = meshMicros default_clock es
                + ForwardOnly.DEFAULT_TRANSMISSION_DELAY_US) /\
    Baseline.handleReceive default_clock er bcastAddr data 10
    = (true, Baseline._adjust default_clock er (stamp mod 2 ^ 56)) /\
    ForwardOnly.handleReceive default_clock er bcastAddr data 10
    = (true, ForwardOnly._adjust default_clock er (stamp mod 2 ^ 56)).
Proof.
  intros es er e.
  assert (H : In e (snd (Baseline.loop default_clock es))
              \/ In e (snd (ForwardOnly.loop ForwardOnly.DEFAULT_TRANSMISSION_DELAY_US
                              default_clock es)))
    by (left; left; reflexivity).
  split; [exact H | ].
  exact (broadcast_is_accepted_by_every_receiver
           ForwardOnly.DEFAULT_TRANSMISSION_DELAY_US
           default_clock es default_clock er bcastAddr e H).
Defined.

Lemma baseline_large_step_sets_clock_witness :
  let env := {| clock_us := 1000000; millis := 40; random := fun lo _ => lo |} in
  let data := data_of_packet (make_packet 999500) in
  parse_packet data 10 = Some 999500 /\
  _synced default_clock = false /\
  meshMicros default_clock env = 1000000 /\
  meshMicros (snd (Baseline.handleReceive default_clock env bcastAddr data 10)) env
  = 999500.
Proof.
  intros env data.
  assert (P : parse_packet data 10 = Some 999500) by reflexivity.
  split; [exact P | ]. split; [reflexivity | ]. split; [reflexivity | ].
  exact (proj1 (baseline_large_step_sets_clock
                  default_clock env bcastAddr data 10 999500 P (or_introl eq_refl))).
Defined.

Lemma synced_clock_ignores_small_backward_stamp_witness :
  let c := set_synced default_clock true in
  let env := {| clock_us := 1000000; millis := 40; random := fun lo _ => lo |} in
  let data := data_of_packet (make_packet 999500) in
  parse_packet data 10 = Some 999500 /\
  _synced c = true /\
  meshMicros c env < 2 ^ 63 /\
  999500 <= meshMicros c env /\
  meshMicros c env - 999500 <= _largeStep c /\
  snd (Baseline.handleReceive c env bcastAddr data 10) = set_lastSync c (millis env).
Proof.
  intros c env data.
  assert (P : parse_packet data 10 = Some 999500) by reflexivity.
  assert (S : _synced c = true) by reflexivity.
  assert (M : meshMicros c env < 2 ^ 63) by by_computation.
  assert (B : 999500 <= meshMicros c env) by by_computation.
  assert (D : meshMicros c env - 999500 <= _largeStep c) by by_computation.
  repeat (split; [assumption | ]).
  exact (proj1 (synced_clock_ignores_small_backward_stamp
                  c env bcastAddr data 10 999500 P S M B D)).
Defined.

Lemma revisions_differ_only_on_large_backward_step_witness :
  let env := {| clock_us := 1000000; millis := 40; random := fun lo _ => lo |} in
  let data := data_of_packet (make_packet 999500) in
  parse_packet data 10 = Some 999500 /\
  meshMicros default_clock env < 2 ^ 63 /\
  0 <= _offset default_clock < 2 ^ 64 /\
  snd (Baseline.handleReceive default_clock env bcastAddr data 10)
  <> snd (ForwardOnly.handleReceive default_clock env bcastAddr data 10).
Proof.
  intros env data.
  assert (P : parse_packet data 10 = Some 999500) by reflexivity.
  assert (M : meshMicros default_clock env < 2 ^ 63) by by_computation.
  assert (O : 0 <= _offset default_clock < 2 ^ 64) by by_computation.
  repeat (split; [assumption | ]).
  intros E.
  apply (proj1 (revisions_differ_only_on_large_backward_step
                  default_clock env bcastAddr data 10 999500 P M O) E).
  split; [by_computation | left; reflexivity].
Defined.

Lemma baseline_first_frame_syncs_receiver_witness :
  let es := {| clock_us := 5000; millis := 1100; random := fun _ hi => hi - 1 |} in
  let er := {| clock_us := 777; millis := 3; random := fun lo _ => lo |} in
  let e := Baseline._broadcast default_clock es in
  In e (snd (Baseline.loop default_clock es)) /\
  meshMicros default_clock es < 2 ^ 56 /\
  _synced default_clock = false /\
  0 <= _syncTimeout default_clock /\
  exists data len,
    e = EspNowSend bcastAddr data len /\
    meshMicros (snd (Baseline.handleReceive default_clock er bcastAddr data len)) er
    = meshMicros default_clock es /\
    getSyncState (snd (Baseline.handleReceive default_clock er bcastAddr data len)) er
    = SYNCED.
Proof.
  intros es er e.
  assert (H : In e (snd (Baseline.loop default_clock es))) by (left; reflexivity).
  assert (M : meshMicros default_clock es < 2 ^ 56) by by_computation.
  assert (S : _synced default_clock = false) by reflexivity.
  assert (T : 0 <= _syncTimeout default_clock) by by_computation.
  repeat (split; [assumption | ]).
  exact (baseline_first_frame_syncs_receiver
           default_clock es default_clock er bcastAddr e H M S T).
Defined.

Lemma forward_first_frame_syncs_receiver_witness :
  let T := ForwardOnly.DEFAULT_TRANSMISSION_DELAY_US in
  let es := {| clock_us := 5000; millis := 1100; random := fun _ hi => hi - 1 |} in
  let er := {| clock_us := 777; millis := 3; random := fun lo _ => lo |} in
  let e := ForwardOnly._broadcast T default_clock es in
  In e (snd (ForwardOnly.loop T default_clock es)) /\
  0 <= meshMicros default_clock es + T < 2 ^ 56 /\
  _synced default_clock = false /\
  meshMicros default_clock er < 2 ^ 63 /\
  exists data len,
    e = EspNowSend bcastAddr data len /\
    meshMicros (snd (ForwardOnly.handleReceive default_clock er bcastAddr data len)) er
    = Z.max (meshMicros default_clock er) (meshMicros default_clock es + T) /\
    _synced (snd (ForwardOnly.handleReceive default_clock er bcastAddr data len)) = true.
Proof.
  intros T es er e.
  assert (H : In e (snd (ForwardOnly.loop T default_clock es))) by (left; reflexivity).
  assert (M : 0 <= meshMicros default_clock es + T < 2 ^ 56) by by_computation.
  assert (S : _synced default_clock = false) by reflexivity.
  assert (R : meshMicros default_clock er < 2 ^ 63) by by_computation.
  repeat (split; [assumption | ]).
  exact (forward_first_frame_syncs_receiver
           T default_clock es default_clock er bcastAddr e H M S R).
Defined.

Lemma loop_gap_bounds_witness :
  let c := set_lastBroadcast default_clock 5000 in
  let early := {| clock_us := 5899000; millis := 5899; random := fun _ hi => hi - 1 |} in
  let late := {| clock_us := 6100000; millis := 6100; random := fun lo _ => lo |} in
  is_u16 (_interval c) /\
  0 <= _randomVariation c <= 100 /\
  random_ok early /\ random_ok late /\
  snd (Baseline.loop c early) = [] /\
  snd (Baseline.loop c late) = [Baseline._broadcast c late].
Proof.
  intros c early late.
  assert (HI : is_u16 (_interval c)) by by_computation.
  assert (HV : 0 <= _randomVariation c <= 100) by by_computation.
  assert (HE : random_ok early) by (intros lo hi H; cbn [random early]; lia).
  assert (HL : random_ok late) by (intros lo hi H; cbn [random late]; lia).
  repeat (split; [assumption | ]).
  split.
  - apply (proj1 (loop_gap_bounds ForwardOnly.DEFAULT_TRANSMISSION_DELAY_US
                    c early HI HV HE (or_introl eq_refl))).
    by_computation.
  - apply (proj1 (proj2 (loop_gap_bounds ForwardOnly.DEFAULT_TRANSMISSION_DELAY_US
                           c late HI HV HL (or_introl eq_refl)))).
    by_computation.
Defined.

Lemma mesh_millis_elapsed_witness :
  let env1 := {| clock_us := 1000000; millis := 40; random := fun lo _ => lo |} in
  let env2 := {| clock_us := 3500000; millis := 2540; random := fun lo _ => lo |} in
  meshMicros default_clock env1 <= meshMicros default_clock env2 /\
  meshMicros default_clock env2 / 1000 - meshMicros default_clock env1 / 1000 < 2 ^ 32 /\
  wrap32 (meshMillis default_clock env2 - meshMillis default_clock env1)
  = meshMicros default_clock env2 / 1000 - meshMicros default_clock env1 / 1000.
Proof.
  intros env1 env2.
  assert (L : meshMicros default_clock env1 <= meshMicros default_clock env2)
    by by_computation.
  assert (B : meshMicros default_clock env2 / 1000
              - meshMicros default_clock env1 / 1000 < 2 ^ 32) by by_computation.
  repeat (split; [assumption | ]).
  exact (proj1 (mesh_millis_elapsed default_clock env1 default_clock env2 L B)).
Defined.

Lemma slew_dead_zone_witness :
  let c := set_synced default_clock true in
  let env := {| clock_us := 1000000; millis := 40; random := fun lo _ => lo |} in
  let data := data_of_packet (make_packet 1000003) in
  parse_packet data 10 = Some 1000003 /\
  _synced c = true /\
  0 <= _offset c < 2 ^ 64 /\
  0 <= 2 <= 126 /\
  _alpha c = Float32.of_scaled 1 (- 2) /\
  0 < 1000003 - meshMicros c env <= _largeStep c /\
  1000003 - meshMicros c env < 2 ^ 24 /\
  _offset (snd (Baseline.handleReceive c env bcastAddr data 10)) = _offset c.
Proof.
  intros c env data.
  assert (P : parse_packet data 10 = Some 1000003) by reflexivity.
  assert (S : _synced c = true) by reflexivity.
  assert (O : 0 <= _offset c < 2 ^ 64) by by_computation.
  assert (K : 0 <= 2 <= 126) by by_computation.
  assert (A : _alpha c = Float32.of_scaled 1 (- 2)) by reflexivity.
  assert (D : 0 < 1000003 - meshMicros c env <= _largeStep c) by by_computation.
  assert (B : 1000003 - meshMicros c env < 2 ^ 24) by by_computation.
  repeat (split; [assumption | ]).
  apply (proj1 (proj2 (slew_dead_zone c env bcastAddr data 10 1000003 2 P S O K A D B))).
  by_computation.
Defined.
